(** * LeadCaptureForm: the submit flow of src/components/LeadCaptureForm.tsx

    A shallow embedding of the component's event handlers.  The handlers are
    [async] functions: they call React state setters, await two remote
    operations of the Supabase client and use [try]/[catch]/[finally].  They
    are embedded as programs of a small free monad [Async] whose nodes are
    the state updates, the awaited remote requests and the clock reading;
    a run against a world that answers the requests gives the final React
    state, the trace of remote requests and the outcome.  The component as
    a whole is a transition system over the committed state and the
    handlers suspended at an [await], stepped by the user's events and by
    the replies. *)

From Stdlib Require Import String List ZArith Bool Arith Lia.
Import ListNotations.
Local Open Scope string_scope.

(** ** JavaScript values

    The values a [catch (err: unknown)] clause can receive and the [error]
    member of a Supabase response.  They are plain data: a property read
    runs no code, so an object with an accessor property and a proxy are
    not among them.  An [Object] is an object that is neither callable nor
    iterable nor a React element, such as an object literal or an instance
    of [Error]; it carries the properties visible through the [in] operator
    (own and inherited).  An [Array] carries its items and the properties
    added to it.  A [Func] carries its properties and [returns], the value
    a call of it returns (a function whose call throws is not among the
    values either). *)
Module Js.

#[warnings="-register-all"]
Inductive value : Type :=
| Undefined
| Null
| Boolean (b : bool)
| Number (n : Z)
| NaN
| Str (s : string)
| Object (props : list (string * value))
| Array (items : list value) (props : list (string * value))
| Func (props : list (string * value)) (returns : value).

(** ToBoolean, as used by [&&], [||], [!] and [if]. *)
Definition truthy (v : value) : bool :=
  match v with
  | Undefined | Null | NaN => false
  | Boolean b => b
  | Number n => negb (n =? 0)%Z
  | Str s => negb (s =? EmptyString)
  | Object _ | Array _ _ | Func _ _ => true
  end.

Definition typeof (v : value) : string :=
  match v with
  | Undefined => "undefined"
  | Null | Object _ | Array _ _ => "object"
  | Boolean _ => "boolean"
  | Number _ | NaN => "number"
  | Str _ => "string"
  | Func _ _ => "function"
  end.

Fixpoint lookup (key : string) (props : list (string * value)) : option value :=
  match props with
  | [] => None
  | (k, v) :: rest => if k =? key then Some v else lookup key rest
  end.

(** The properties of an object, an array or a function, for keys other
    than the indices and the built-in properties; a primitive has none. *)
Definition properties (v : value) : list (string * value) :=
  match v with
  | Object props | Array _ props | Func props _ => props
  | _ => []
  end.

(** [key in v], for [v] an object, an array or a function (on a primitive
    the operator throws; the source only evaluates it behind
    [typeof v === 'object']). *)
Definition has (key : string) (v : value) : bool :=
  match lookup key (properties v) with
  | Some _ => true
  | None => false
  end.

(** [v.key] for a [v] that is neither [null] nor [undefined] and a [key]
    that the built-in prototypes do not define, such as [message]: a missing
    property, and any such property of a primitive, reads as [undefined]. *)
Definition prop (v : value) (key : string) : value :=
  match lookup key (properties v) with
  | Some x => x
  | None => Undefined
  end.

Definition nullish (v : value) : bool :=
  match v with
  | Undefined | Null => true
  | _ => false
  end.

(** [a || b]. *)
Definition or (a b : value) : value := if truthy a then a else b.

Definition is_string (v : value) : bool :=
  match v with
  | Str _ => true
  | _ => false
  end.

(** What a [useState] setter stores when it is called with [v]: React
    calls a function as an updater, with the latest value of the cell, and
    stores what the call returns; any other value is stored as it is. *)
Definition stored (v : value) : value :=
  match v with
  | Func _ returns => returns
  | _ => v
  end.

(** [{v}] as a child of an element: React throws on an object that is
    neither an element nor iterable, renders the items of an array and
    shows nothing for a function. *)
Fixpoint valid_child (v : value) : bool :=
  match v with
  | Object _ => false
  | Array items _ => forallb valid_child items
  | _ => true
  end.

(** The exception of a property read on [null] or [undefined]. *)
Definition TypeError (msg : string) : value :=
  Object [("name", Str "TypeError"); ("message", Str msg)].

End Js.

(** ** Data model *)

(** [type LeadInput = { name: string; email: string; industry: string }] *)
Record LeadInput : Type := mkLeadInput {
  name : string;
  email : string;
  industry : string
}.

(** An element of the [leads] array: the input and [submitted_at]. *)
Record SubmittedLead : Type := mkSubmittedLead {
  lead_name : string;
  lead_email : string;
  lead_industry : string;
  submitted_at : string
}.

(** [ValidationError] of [@/lib/validation]. *)
Record ValidationError : Type := mkValidationError {
  field : string;
  message : string
}.

(** [{ success: boolean; error?: string }]; [error = None] is the absent
    property.  The declared type of [error] is erased at run time, so the
    member holds whatever value the wrapper stored. *)
Record OperationResult : Type := mkResult {
  success : bool;
  error : option Js.value
}.

(** [result.error]: an absent property reads as [undefined]. *)
Definition error_of (r : OperationResult) : Js.value :=
  match error r with
  | Some v => v
  | None => Js.Undefined
  end.

(** The [useState] cells of the component. *)
Record State : Type := mkState {
  formData : LeadInput;
  validationErrors : list ValidationError;
  submitted : bool;
  isSubmitting : bool;
  isResendingEmail : bool;
  leadError : Js.value;
  emailError : Js.value;
  leads : list SubmittedLead
}.

Definition emptyForm : LeadInput := mkLeadInput EmptyString EmptyString EmptyString.

(** The state of the first render. *)
Definition initialState : State :=
  mkState emptyForm [] false false false Js.Null Js.Null [].

(** The setters.  A setter called with a value stores it; a setter called
    with a function applies it to the latest value of its cell.  The two
    error setters are called with values of unknown shape, a function among
    them ([Js.stored]); the others are called with a literal, with the
    validator's array or with an arrow function of the source. *)
Definition setFormData (f : LeadInput -> LeadInput) (s : State) : State :=
  mkState (f (formData s)) (validationErrors s) (submitted s) (isSubmitting s)
          (isResendingEmail s) (leadError s) (emailError s) (leads s).

Definition setValidationErrors
  (f : list ValidationError -> list ValidationError) (s : State) : State :=
  mkState (formData s) (f (validationErrors s)) (submitted s) (isSubmitting s)
          (isResendingEmail s) (leadError s) (emailError s) (leads s).

Definition setSubmitted (b : bool) (s : State) : State :=
  mkState (formData s) (validationErrors s) b (isSubmitting s)
          (isResendingEmail s) (leadError s) (emailError s) (leads s).

Definition setIsSubmitting (b : bool) (s : State) : State :=
  mkState (formData s) (validationErrors s) (submitted s) b
          (isResendingEmail s) (leadError s) (emailError s) (leads s).

Definition setIsResendingEmail (b : bool) (s : State) : State :=
  mkState (formData s) (validationErrors s) (submitted s) (isSubmitting s)
          b (leadError s) (emailError s) (leads s).

Definition setLeadError (v : Js.value) (s : State) : State :=
  mkState (formData s) (validationErrors s) (submitted s) (isSubmitting s)
          (isResendingEmail s) (Js.stored v) (emailError s) (leads s).

Definition setEmailError (v : Js.value) (s : State) : State :=
  mkState (formData s) (validationErrors s) (submitted s) (isSubmitting s)
          (isResendingEmail s) (leadError s) (Js.stored v) (leads s).

Definition setLeads (f : list SubmittedLead -> list SubmittedLead) (s : State) : State :=
  mkState (formData s) (validationErrors s) (submitted s) (isSubmitting s)
          (isResendingEmail s) (leadError s) (emailError s) (f (leads s)).

(** ** Asynchronous programs *)

(** The two remote operations of the Supabase client:
    [supabase.from(table).insert([row])] and
    [supabase.functions.invoke(fn, { body })]. *)
Inductive Request : Type :=
| Insert (table : string) (row : LeadInput)
| Invoke (fn : string) (body : LeadInput).

(** What awaiting a request does: the promise resolves to a response whose
    [error] member is destructured, or it rejects with a thrown value. *)
Inductive Reply : Type :=
| Resolves (error : Js.value)
| Rejects (thrown : Js.value).

Inductive Async (A : Type) : Type :=
| Ret (a : A)
| Throw (e : Js.value)
| SetState (f : State -> State) (k : Async A)
| Await (q : Request) (k : Reply -> Async A)
| Now (k : string -> Async A).

Arguments Ret {A} a.
Arguments Throw {A} e.
Arguments SetState {A} f k.
Arguments Await {A} q k.
Arguments Now {A} k.

Fixpoint bind {A B : Type} (m : Async A) (f : A -> Async B) : Async B :=
  match m with
  | Ret a => f a
  | Throw e => Throw e
  | SetState g k => SetState g (bind k f)
  | Await q k => Await q (fun r => bind (k r) f)
  | Now k => Now (fun t => bind (k t) f)
  end.

Declare Scope async_scope.
Delimit Scope async_scope with async.
Notation "x <- m ;; k" := (bind m (fun x => k))
  (at level 61, m at next level, right associativity) : async_scope.
Notation "m ;; k" := (bind m (fun _ => k))
  (at level 61, right associativity) : async_scope.
Local Open Scope async_scope.

(** [try { m } catch (err) { h err }] *)
Fixpoint try_catch {A : Type} (m : Async A) (h : Js.value -> Async A) : Async A :=
  match m with
  | Ret a => Ret a
  | Throw e => h e
  | SetState g k => SetState g (try_catch k h)
  | Await q k => Await q (fun r => try_catch (k r) h)
  | Now k => Now (fun t => try_catch (k t) h)
  end.

(** [try { m } finally { fin }]: [fin] runs on both exits and the exit of
    [m] is kept, unless [fin] itself throws. *)
Fixpoint try_finally {A : Type} (m : Async A) (fin : Async unit) : Async A :=
  match m with
  | Ret a => fin ;; Ret a
  | Throw e => fin ;; Throw e
  | SetState g k => SetState g (try_finally k fin)
  | Await q k => Await q (fun r => try_finally (k r) fin)
  | Now k => Now (fun t => try_finally (k t) fin)
  end.

Definition update (f : State -> State) : Async unit := SetState f (Ret tt).

(** [const { error } = await request] *)
Definition await (q : Request) : Async Js.value :=
  Await q (fun r => match r with
                    | Resolves err => Ret err
                    | Rejects e => Throw e
                    end).

(** [new Date().toISOString()] *)
Definition toISOString_now : Async string := Now (fun t => Ret t).

(** [v.key], which throws a [TypeError] on [null] and [undefined]. *)
Definition member (v : Js.value) (key : string) : Async Js.value :=
  if Js.nullish v
  then Throw (Js.TypeError "Cannot read properties of null or undefined")
  else Ret (Js.prop v key).

(** ** Running a handler to completion *)

(** The environment of one run: the reply to each request and the clock. *)
Record World : Type := mkWorld {
  respond : Request -> Reply;
  clock : string
}.

Inductive Outcome (A : Type) : Type :=
| Returned (a : A)
| Threw (e : Js.value).

Arguments Returned {A} a.
Arguments Threw {A} e.

Record Run (A : Type) : Type := mkRun {
  final : State;
  trace : list Request;
  outcome : Outcome A
}.

Arguments mkRun {A} final trace outcome.
Arguments final {A} r.
Arguments trace {A} r.
Arguments outcome {A} r.

Fixpoint run_from {A : Type} (w : World) (p : Async A) (s : State)
  (done : list Request) : Run A :=
  match p with
  | Ret a => mkRun s done (Returned a)
  | Throw e => mkRun s done (Threw e)
  | SetState f k => run_from w k (f s) done
  | Await q k => run_from w (k (respond w q)) s (done ++ [q])
  | Now k => run_from w (k (clock w)) s done
  end.

Definition run {A : Type} (w : World) (p : Async A) (s : State) : Run A :=
  run_from w p s [].

(** ** The handlers *)

(** The local [message] of [getErrorMessage].  The cast
    [(err as { message?: string })] is erased, so [message] is whatever the
    property holds. *)
Definition carried_message (err : Js.value) : Js.value :=
  if Js.truthy err && (Js.typeof err =? "object") && Js.has "message" err
  then Js.prop err "message"
  else Js.Undefined.

(** [getErrorMessage(err, fallbackMessage)].  Every call site passes the
    fallback, which is therefore an argument here. *)
Definition getErrorMessage (err : Js.value) (fallbackMessage : string) : Js.value :=
  let message := carried_message err in
  Js.or message (Js.Str fallbackMessage).

(** Helper: Save lead to Supabase. *)
Definition saveLead (data : LeadInput) : Async OperationResult :=
  try_catch
    (err <- await (Insert "leads" (mkLeadInput (name data) (email data) (industry data))) ;;
     if Js.truthy err
     then (m <- member err "message" ;;
           Ret (mkResult false (Some (Js.or m (Js.Str "Failed to save lead.")))))
     else Ret (mkResult true None))
    (fun err =>
       let message := getErrorMessage err "Unexpected error while saving lead." in
       Ret (mkResult false (Some message))).

(** Helper: Send confirmation email (non-critical).  The [console.log] of
    the [catch] block touches neither the state nor the result. *)
Definition sendConfirmationEmail (data : LeadInput) : Async OperationResult :=
  try_catch
    (err <- await (Invoke "send-confirmation"
                     (mkLeadInput (name data) (email data) (industry data))) ;;
     if Js.truthy err
     then (m <- member err "message" ;;
           Ret (mkResult false (Some (Js.or m (Js.Str "Failed to send confirmation email.")))))
     else Ret (mkResult true None))
    (fun err =>
       let message := getErrorMessage err "Unexpected error while sending email." in
       Ret (mkResult false (Some message))).

(** [const lastLead = leads[leads.length - 1]] *)
Definition lastLead (ls : list SubmittedLead) : option SubmittedLead :=
  nth_error ls (length ls - 1).

(** [resendEmail], as created by the render of state [r]: [leads] is the
    array of that render.  [lastLead] is [undefined] when the index is out
    of range, and reading [lastLead.name] then throws inside the [try]. *)
Definition resendEmail (r : State) : Async unit :=
  if (length (leads r) =? 0)%nat then Ret tt
  else
    update (setIsResendingEmail true) ;;
    update (setEmailError Js.Null) ;;
    let lastLead := lastLead (leads r) in
    try_finally
      (try_catch
         (data <- match lastLead with
                  | Some l => Ret (mkLeadInput (lead_name l) (lead_email l) (lead_industry l))
                  | None => Throw (Js.TypeError "Cannot read properties of undefined")
                  end ;;
          result <- sendConfirmationEmail data ;;
          if negb (success result)
          then update (setEmailError
                         (Js.or (error_of result)
                                (Js.Str "Still unable to send the confirmation email.")))
          else Ret tt)
         (fun err =>
            let message := getErrorMessage err "Unexpected error while resending email." in
            update (setEmailError message)))
      (update (setIsResendingEmail false)).

(** The three fields the form edits. *)
Inductive Field : Type := FName | FEmail | FIndustry.

Definition field_name (f : Field) : string :=
  match f with
  | FName => "name"
  | FEmail => "email"
  | FIndustry => "industry"
  end.

(** [{ ...prev, [field]: value }] *)
Definition with_field (f : Field) (v : string) (prev : LeadInput) : LeadInput :=
  match f with
  | FName => mkLeadInput v (email prev) (industry prev)
  | FEmail => mkLeadInput (name prev) v (industry prev)
  | FIndustry => mkLeadInput (name prev) (email prev) v
  end.

(** [handleInputChange(field, value)], as created by the render of [r]. *)
Definition handleInputChange (r : State) (f : Field) (v : string) : Async unit :=
  update (setFormData (with_field f v)) ;;
  if existsb (fun e => field e =? field_name f) (validationErrors r)
  then update (setValidationErrors
                 (filter (fun e => negb (field e =? field_name f))))
  else Ret tt.

Section Controller.

(** [validateLeadForm] of the module [@/lib/validation]: any function from
    the form data to a list of errors. *)
Variable validateLeadForm : LeadInput -> list ValidationError.

(** [handleSubmit], as created by the render of state [r]: [formData] is the
    object of that render.  [e.preventDefault()] has no effect on the
    state.  The [return] inside [try] leaves through [finally]. *)
Definition handleSubmit (r : State) : Async unit :=
  update (setLeadError Js.Null) ;;
  update (setEmailError Js.Null) ;;
  let errors := validateLeadForm (formData r) in
  update (setValidationErrors (fun _ => errors)) ;;
  if (0 <? length errors)%nat then Ret tt
  else
    update (setIsSubmitting true) ;;
    try_finally
      (try_catch
         (saveResult <- saveLead (formData r) ;;
          if negb (success saveResult)
          then update (setLeadError
                         (Js.or (error_of saveResult)
                                (Js.Str "Failed to save your information. Please try again.")))
          else
            emailResult <- sendConfirmationEmail (formData r) ;;
            (if negb (success emailResult)
             then update (setEmailError
                            (Js.or (error_of emailResult)
                                   (Js.Str "We could not send a confirmation email right now.")))
             else Ret tt) ;;
            stamp <- toISOString_now ;;
            let lead := mkSubmittedLead (name (formData r)) (email (formData r))
                                        (industry (formData r)) stamp in
            update (setLeads (fun prev => (prev ++ [lead])%list)) ;;
            update (setSubmitted true) ;;
            update (setFormData (fun _ => emptyForm)))
         (fun err =>
            let message := getErrorMessage err "Unexpected error occurred." in
            update (setLeadError message)))
      (update (setIsSubmitting false)).

End Controller.

(** The lead [handleSubmit] records for the form data of state [s] at
    clock reading [t]. *)
Definition recorded (s : State) (t : string) : SubmittedLead :=
  mkSubmittedLead (name (formData s)) (email (formData s)) (industry (formData s)) t.

(** The input [resendEmail] rebuilds from a recorded lead. *)
Definition input_of (l : SubmittedLead) : LeadInput :=
  mkLeadInput (lead_name l) (lead_email l) (lead_industry l).

(** ** The remote replies and the results of the wrappers *)

(** A reply is a failure when the response carries a truthy [error] or the
    promise rejects. *)
Definition failed (r : Reply) : bool :=
  match r with
  | Resolves err => Js.truthy err
  | Rejects _ => true
  end.

(** The OperationResult invariant: [error] is present only when [success]
    is false. *)
Definition result_invariant (r : OperationResult) : bool :=
  match error r with
  | Some _ => negb (success r)
  | None => true
  end.

(** The result a wrapper builds from a reply, with its two fallbacks. *)
Definition normalized (onError onThrow : string) (r : Reply) : OperationResult :=
  match r with
  | Resolves err =>
      if Js.truthy err
      then mkResult false (Some (Js.or (Js.prop err "message") (Js.Str onError)))
      else mkResult true None
  | Rejects e => mkResult false (Some (getErrorMessage e onThrow))
  end.

(** ** Component-level behaviour: events and suspended handlers *)

(** Which handler a suspended continuation belongs to. *)
Inductive Origin : Type := FromSubmit | FromResend | FromChange.

(** A handler suspended at an [await]. *)
Record Task : Type := mkTask {
  origin : Origin;
  request : Request;
  resume : Reply -> Async unit
}.

(** The committed React state and the handlers in flight. *)
Record System : Type := mkSystem {
  ui : State;
  pending : list Task
}.

(** One synchronous segment of a handler: the updates up to the next
    [await] or to the end.  [t] is the clock during the segment.  A
    rejection that leaves a handler is dropped. *)
Fixpoint segment (t : string) (p : Async unit) (s : State)
  : State * option (Request * (Reply -> Async unit)) :=
  match p with
  | Ret _ | Throw _ => (s, None)
  | SetState f k => segment t k (f s)
  | Await q k => (s, Some (q, k))
  | Now k => segment t (k t) s
  end.

(** Runs a segment of a handler of origin [o] from the committed state [s]
    and commits it; [others] are the handlers that stay suspended. *)
Definition advance (o : Origin) (t : string) (p : Async unit) (s : State)
  (others : list Task) : System :=
  match segment t p s with
  | (s', None) => mkSystem s' others
  | (s', Some (q, k)) => mkSystem s' (others ++ [mkTask o q k])
  end.

(** The retry button is rendered in the submitted view inside
    [{emailError && ...}] and is [disabled={isResendingEmail}]. *)
Definition retry_enabled (s : State) : bool :=
  submitted s && Js.truthy (emailError s) && negb (isResendingEmail s).

(** The form is rendered when [submitted] is false; its inputs and its
    submit button are [disabled={isSubmitting}]. *)
Definition form_enabled (s : State) : bool :=
  negb (submitted s) && negb (isSubmitting s).

Definition is_resend (t : Task) : bool :=
  match origin t with
  | FromResend => true
  | FromSubmit | FromChange => false
  end.

(** A request to the email function. *)
Definition is_email_request (q : Request) : bool :=
  match q with
  | Invoke fn _ => fn =? "send-confirmation"
  | Insert _ _ => false
  end.

(** The resend invocations in flight. *)
Definition resends_in_flight (sys : System) : list Task :=
  filter is_resend (pending sys).

Section Component.

Variable validateLeadForm : LeadInput -> list ValidationError.

(** The events of the component.  An event is dispatched against the
    committed state, whose render created the handler, and the updates of
    the synchronous segment it runs are committed before the next event. *)
Inductive step : System -> System -> Prop :=
| step_submit (sys : System) (t : string) :
    form_enabled (ui sys) = true ->
    step sys (advance FromSubmit t (handleSubmit validateLeadForm (ui sys)) (ui sys) (pending sys))
| step_retry (sys : System) (t : string) :
    retry_enabled (ui sys) = true ->
    step sys (advance FromResend t (resendEmail (ui sys)) (ui sys) (pending sys))
| step_another (sys : System) :
    submitted (ui sys) = true ->
    step sys (mkSystem (setSubmitted false (ui sys)) (pending sys))
| step_change (sys : System) (t : string) (f : Field) (v : string) :
    form_enabled (ui sys) = true ->
    step sys (advance FromChange t (handleInputChange (ui sys) f v) (ui sys) (pending sys))
| step_settle (sys : System) (t : string) (before after : list Task)
    (task : Task) (reply : Reply) :
    pending sys = (before ++ task :: after)%list ->
    step sys (advance (origin task) t (resume task reply) (ui sys) (before ++ after)%list).

Inductive reachable : System -> Prop :=
| reachable_init : reachable (mkSystem initialState [])
| reachable_step (sys sys' : System) :
    reachable sys -> step sys sys' -> reachable sys'.

End Component.

(** The events by name; [Settle n reply] delivers [reply] to the handler
    suspended at position [n]. *)
Inductive Event : Type :=
| Submit
| Retry
| SubmitAnother
| Change (f : Field) (v : string)
| Settle (n : nat) (reply : Reply).

(** The events as a function: [None] when the control the event comes from
    is not rendered or is disabled, or when no handler is suspended at the
    position. *)
Definition fire (validateLeadForm : LeadInput -> list ValidationError)
  (t : string) (e : Event) (sys : System) : option System :=
  match e with
  | Submit =>
      if form_enabled (ui sys)
      then Some (advance FromSubmit t (handleSubmit validateLeadForm (ui sys))
                         (ui sys) (pending sys))
      else None
  | Retry =>
      if retry_enabled (ui sys)
      then Some (advance FromResend t (resendEmail (ui sys)) (ui sys) (pending sys))
      else None
  | SubmitAnother =>
      if submitted (ui sys)
      then Some (mkSystem (setSubmitted false (ui sys)) (pending sys))
      else None
  | Change f v =>
      if form_enabled (ui sys)
      then Some (advance FromChange t (handleInputChange (ui sys) f v)
                         (ui sys) (pending sys))
      else None
  | Settle n reply =>
      match skipn n (pending sys) with
      | task :: after =>
          Some (advance (origin task) t (resume task reply) (ui sys)
                        (firstn n (pending sys) ++ after))
      | [] => None
      end
  end.

(** A sequence of events, all at clock reading [t]. *)
Fixpoint play (validateLeadForm : LeadInput -> list ValidationError)
  (t : string) (events : list Event) (sys : System) : option System :=
  match events with
  | [] => Some sys
  | e :: rest =>
      match fire validateLeadForm t e sys with
      | Some sys' => play validateLeadForm t rest sys'
      | None => None
      end
  end.

(** ** Example data *)

(** A validator for the examples: each of the three fields is required. *)
Definition requireAll (d : LeadInput) : list ValidationError :=
  ((if name d =? EmptyString then [mkValidationError "name" "Name is required"] else []) ++
   (if email d =? EmptyString then [mkValidationError "email" "Email is required"] else []) ++
   (if industry d =? EmptyString then [mkValidationError "industry" "Industry is required"] else []))%list.

Definition ana : LeadInput := mkLeadInput "Ana" "ana@x.com" "finance".

(** The first render after the form was filled in with [ana]. *)
Definition filled : State := setFormData (fun _ => ana) initialState.

(** [{ message: m }] *)
Definition with_message (m : Js.value) : Js.value := Js.Object [("message", m)].

(** A world by its two replies. *)
Definition world (onInsert onInvoke : Reply) (t : string) : World :=
  mkWorld (fun q => match q with
                    | Insert _ _ => onInsert
                    | Invoke _ _ => onInvoke
                    end) t.

(** The component after a sequence of events from the first render (the
    first render itself if one of the events cannot fire). *)
Definition after (events : list Event) : System :=
  match play requireAll "T" events (mkSystem initialState []) with
  | Some sys => sys
  | None => mkSystem initialState []
  end.

(** Fill in the form, submit, the insert succeeds, the email function
    fails, click the retry button. *)
Definition retrying : list Event :=
  [Change FName "Ana"; Change FEmail "ana@x.com"; Change FIndustry "finance";
   Submit; Settle 0 (Resolves Js.Null);
   Settle 0 (Resolves (with_message (Js.Str "rate limited")));
   Retry].

(** All updates of a program leave [isResendingEmail] as it is. *)
Fixpoint keeps_resending {A : Type} (p : Async A) : Prop :=
  match p with
  | Ret _ | Throw _ => True
  | SetState f k => (forall s, isResendingEmail (f s) = isResendingEmail s) /\ keeps_resending k
  | Await _ k => forall r, keeps_resending (k r)
  | Now k => forall t, keeps_resending (k t)
  end.

(** A continuation that, whatever the reply, runs to its end without a
    further [await] and leaves [isResendingEmail] false. *)
Definition finishes_resend (k : Reply -> Async unit) : Prop :=
  forall reply t s,
    snd (segment t (k reply) s) = None /\
    isResendingEmail (fst (segment t (k reply) s)) = false.

(** The invariant of the component: suspended handlers other than a resend
    never touch [isResendingEmail]; a suspended resend waits for the email
    function and ends by clearing the flag; and the flag is set exactly
    while one resend, and no more than one, is in flight. *)
Record invariant (sys : System) : Prop := mkInvariant {
  inv_others : forall task, In task (pending sys) -> is_resend task = false ->
                            forall reply, keeps_resending (resume task reply);
  inv_resend : forall task, In task (pending sys) -> is_resend task = true ->
                            is_email_request (request task) = true /\
                            finishes_resend (resume task);
  inv_count : length (resends_in_flight sys) <= 1;
  inv_flag : isResendingEmail (ui sys) = negb (length (resends_in_flight sys) =? 0)%nat
}.

(** ** The rendered view *)

(** [getFieldError(field)]: the message of the first error of the field,
    [None] for [undefined]. *)
Definition getFieldError (s : State) (f : string) : option string :=
  match find (fun e => field e =? f) (validationErrors s) with
  | Some e => Some (message e)
  | None => None
  end.

(** [{getFieldError(f) && <p>...</p>}]: an empty message shows nothing. *)
Definition shown (m : option string) : option string :=
  match m with
  | Some text => if text =? EmptyString then None else Some text
  | None => None
  end.

(** [{error && <Alert>...</Alert>}] *)
Definition alert (v : Js.value) : option Js.value :=
  if Js.truthy v then Some v else None.

(** What the two branches of the component's [return] show of the state.
    The success view: the name in the heading, the position in the session,
    and the email alert with the [disabled] attribute of its retry button.
    The form view: the overlay, the alert of the critical error, the values
    of the inputs, the message under each input and the [disabled]
    attribute of the inputs and of the submit button. *)
Inductive View : Type :=
| SuccessView (welcome : string) (position : nat)
    (emailPending : option (Js.value * bool))
| FormView (overlay : bool) (submissionFailed : option Js.value)
    (values : LeadInput) (nameMessage emailMessage industryMessage : option string)
    (disabled : bool).

(** [leads[leads.length - 1].name] of the heading; [None] when the read
    throws, which it does on an empty [leads]. *)
Definition greeting (s : State) : option string :=
  match lastLead (leads s) with
  | Some l => Some (lead_name l)
  | None => None
  end.

(** The value the alert of the rendered view has as a child: [{emailError}]
    in the success view, [{leadError}] in the form view. *)
Definition shown_error (s : State) : Js.value :=
  if submitted s then emailError s else leadError s.

(** An alert that is rendered has its value as a child. *)
Definition renders (a : option Js.value) : bool :=
  match a with
  | Some v => Js.valid_child v
  | None => true
  end.

(** The render of a state; [None] when it throws: on the heading of the
    success view with an empty [leads], and on an alert whose value React
    refuses as a child. *)
Definition render (s : State) : option View :=
  if submitted s
  then match greeting s with
       | Some welcome =>
           if renders (alert (emailError s))
           then Some (SuccessView welcome (length (leads s))
                        (match alert (emailError s) with
                         | Some reason => Some (reason, isResendingEmail s)
                         | None => None
                         end))
           else None
       | None => None
       end
  else if renders (alert (leadError s))
       then Some (FormView (isSubmitting s) (alert (leadError s)) (formData s)
                    (shown (getFieldError s "name"))
                    (shown (getFieldError s "email"))
                    (shown (getFieldError s "industry"))
                    (isSubmitting s))
       else None.

(** ** Invariants of suspended handlers *)

(** [P] holds of every continuation a program can be resumed with, at
    every [await] it can reach. *)
Fixpoint conts_satisfy (P : Async unit -> Prop) (p : Async unit) : Prop :=
  match p with
  | Ret _ | Throw _ => True
  | SetState _ k => conts_satisfy P k
  | Await _ k => forall r, P (k r) /\ conts_satisfy P (k r)
  | Now k => forall t, conts_satisfy P (k t)
  end.

(** The next segment of a program takes states of [I] to states of [I]. *)
Definition keeps_invariant (I : State -> Prop) (p : Async unit) : Prop :=
  forall t s, I s -> I (fst (segment t p s)).

(** Every suspended handler keeps [I], now and whenever it is resumed
    again. *)
Definition tasks_keep (I : State -> Prop) (sys : System) : Prop :=
  forall task, In task (pending sys) ->
  forall reply, keeps_invariant I (resume task reply) /\
                conts_satisfy (keeps_invariant I) (resume task reply).

(** Several events in a row. *)
Inductive steps (validateLeadForm : LeadInput -> list ValidationError)
  : System -> System -> Prop :=
| steps_none (sys : System) : steps validateLeadForm sys sys
| steps_more (sys mid sys' : System) :
    step validateLeadForm sys mid -> steps validateLeadForm mid sys' ->
    steps validateLeadForm sys sys'.

(** The session log of [s] extends [log]. *)
Definition extends (log : list SubmittedLead) (s : State) : Prop :=
  exists newer, leads s = (log ++ newer)%list.

(** The success view is only entered with a lead to greet. *)
Definition greetable (s : State) : Prop :=
  submitted s = true -> leads s <> [].

(** Every recorded lead passes the validator. *)
Definition all_validated (validateLeadForm : LeadInput -> list ValidationError)
  (s : State) : Prop :=
  Forall (fun l => validateLeadForm (input_of l) = []) (leads s).

(** What one segment of a handler created by the render [r] does to the
    view and to the session log: it leaves both, or, only for a form that
    passed validation, it appends the lead recorded from that form and
    switches to the success view. *)
Definition keeps_or_records (validateLeadForm : LeadInput -> list ValidationError)
  (r s s' : State) : Prop :=
  (submitted s' = submitted s /\ leads s' = leads s) \/
  (validateLeadForm (formData r) = [] /\
   submitted s' = true /\
   exists t, leads s' = (leads s ++ [recorded r t])%list).

Definition logging_segment (validateLeadForm : LeadInput -> list ValidationError)
  (r : State) (p : Async unit) : Prop :=
  forall t s, keeps_or_records validateLeadForm r s (fst (segment t p s)).

(** ** The submit guard *)

Definition is_submit (t : Task) : bool :=
  match origin t with
  | FromSubmit => true
  | FromResend | FromChange => false
  end.

(** The submissions in flight. *)
Definition submits_in_flight (sys : System) : list Task :=
  filter is_submit (pending sys).

(** A segment of a submission that is in flight: resumed with the form
    view shown and no critical error, it either suspends again with
    [isSubmitting], [submitted] and [leadError] as they are, or it ends with
    [isSubmitting] false and, if it switched to the success view, still no
    critical error. *)
Definition submit_segment (p : Async unit) : Prop :=
  forall t s,
    match snd (segment t p s) with
    | Some _ =>
        isSubmitting (fst (segment t p s)) = isSubmitting s /\
        submitted (fst (segment t p s)) = submitted s /\
        leadError (fst (segment t p s)) = leadError s
    | None =>
        isSubmitting (fst (segment t p s)) = false /\
        (submitted s = false -> leadError s = Js.Null ->
         submitted (fst (segment t p s)) = true ->
         leadError (fst (segment t p s)) = Js.Null)
    end.

(** A segment that leaves the submission alone. *)
Definition bystander_segment (p : Async unit) : Prop :=
  forall t s,
    isSubmitting (fst (segment t p s)) = isSubmitting s /\
    submitted (fst (segment t p s)) = submitted s /\
    leadError (fst (segment t p s)) = leadError s.

(** The invariant of the submit guard: [isSubmitting] is set exactly while
    one submission, and no more than one, is in flight; during it the form
    view is shown without a critical error; and the success view is never
    shown with one. *)
Record submit_invariant (sys : System) : Prop := mkSubmitInvariant {
  sub_flow : forall task, In task (pending sys) -> is_submit task = true ->
             forall reply, submit_segment (resume task reply) /\
                           conts_satisfy submit_segment (resume task reply);
  sub_others : forall task, In task (pending sys) -> is_submit task = false ->
               forall reply, bystander_segment (resume task reply) /\
                             conts_satisfy bystander_segment (resume task reply);
  sub_count : length (submits_in_flight sys) <= 1;
  sub_flag : isSubmitting (ui sys) = negb (length (submits_in_flight sys) =? 0)%nat;
  sub_form : isSubmitting (ui sys) = true ->
             submitted (ui sys) = false /\ leadError (ui sys) = Js.Null;
  sub_clean : submitted (ui sys) = true -> leadError (ui sys) = Js.Null
}.

(** ** More example data *)

(** Fill in the form, submit, both requests succeed. *)
Definition welcomed : list Event :=
  [Change FName "Ana"; Change FEmail "ana@x.com"; Change FIndustry "finance";
   Submit; Settle 0 (Resolves Js.Null); Settle 0 (Resolves Js.Null)].

(** Fill in the form and submit; the insert is in flight. *)
Definition submitting : list Event :=
  [Change FName "Ana"; Change FEmail "ana@x.com"; Change FIndustry "finance"; Submit].

(** Fill in the form, submit, the insert succeeds, the email function
    fails: the retry button is shown. *)
Definition pendingEmail : list Event :=
  [Change FName "Ana"; Change FEmail "ana@x.com"; Change FIndustry "finance";
   Submit; Settle 0 (Resolves Js.Null);
   Settle 0 (Resolves (with_message (Js.Str "rate limited")))].

(** * Properties *)

(** ** Runs of composed programs *)

Lemma run_from_bind {A B : Type} (w : World) (m : Async A) (f : A -> Async B) :
  forall s tr,
    run_from w (x <- m ;; f x) s tr =
    match outcome (run_from w m s tr) with
    | Returned a => run_from w (f a) (final (run_from w m s tr)) (trace (run_from w m s tr))
    | Threw e => mkRun (final (run_from w m s tr)) (trace (run_from w m s tr)) (Threw e)
    end.
Proof.
  induction m as [a | e | g k IH | q k IH | k IH]; intros s tr; simpl; auto.
Qed.

Lemma run_from_try_catch {A : Type} (w : World) (m : Async A) (h : Js.value -> Async A) :
  forall s tr,
    run_from w (try_catch m h) s tr =
    match outcome (run_from w m s tr) with
    | Returned a => run_from w m s tr
    | Threw e => run_from w (h e) (final (run_from w m s tr)) (trace (run_from w m s tr))
    end.
Proof.
  induction m as [a | e | g k IH | q k IH | k IH]; intros s tr; simpl; auto.
Qed.

Lemma run_from_try_finally {A : Type} (w : World) (m : Async A) (fin : Async unit) :
  forall s tr,
    run_from w (try_finally m fin) s tr =
    let r := run_from w m s tr in
    let r' := run_from w fin (final r) (trace r) in
    match outcome r' with
    | Returned _ => mkRun (final r') (trace r') (outcome r)
    | Threw e => mkRun (final r') (trace r') (Threw e)
    end.
Proof.
  induction m as [a | e | g k IH | q k IH | k IH]; intros s tr; simpl; auto;
    rewrite run_from_bind; destruct (outcome (run_from w fin s tr)); reflexivity.
Qed.

(** ** The wrappers *)

Lemma lead_input_eta (d : LeadInput) :
  mkLeadInput (name d) (email d) (industry d) = d.
Proof. destruct d; reflexivity. Qed.

(** A wrapper issues its one request, leaves the state alone and returns
    the normalized reply. *)
Lemma run_saveLead (w : World) (d : LeadInput) (s : State) (tr : list Request) :
  run_from w (saveLead d) s tr =
  mkRun s (tr ++ [Insert "leads" d])
        (Returned (normalized "Failed to save lead."
                              "Unexpected error while saving lead."
                              (respond w (Insert "leads" d)))).
Proof.
  unfold saveLead. rewrite lead_input_eta. simpl.
  destruct (respond w (Insert "leads" d)) as [err | e]; simpl; [| reflexivity].
  destruct err; simpl; try reflexivity;
    match goal with |- context [if ?c then _ else _] => destruct c end; reflexivity.
Qed.

Lemma run_sendConfirmationEmail (w : World) (d : LeadInput) (s : State) (tr : list Request) :
  run_from w (sendConfirmationEmail d) s tr =
  mkRun s (tr ++ [Invoke "send-confirmation" d])
        (Returned (normalized "Failed to send confirmation email."
                              "Unexpected error while sending email."
                              (respond w (Invoke "send-confirmation" d)))).
Proof.
  unfold sendConfirmationEmail. rewrite lead_input_eta. simpl.
  destruct (respond w (Invoke "send-confirmation" d)) as [err | e]; simpl; [| reflexivity].
  destruct err; simpl; try reflexivity;
    match goal with |- context [if ?c then _ else _] => destruct c end; reflexivity.
Qed.

Lemma normalized_success (onError onThrow : string) (r : Reply) :
  success (normalized onError onThrow r) = negb (failed r).
Proof.
  destruct r as [err | e]; simpl; [destruct (Js.truthy err) |]; reflexivity.
Qed.






Lemma normalized_invariant (onError onThrow : string) (r : Reply) :
  result_invariant (normalized onError onThrow r) = true.
Proof.
  destruct r as [err | e]; simpl; [destruct (Js.truthy err) |]; reflexivity.
Qed.




(** ** The submit flow *)

#[local] Opaque saveLead sendConfirmationEmail.

(** Unfolds a handler and pushes the run through its binds, its
    [try] blocks and its wrapper calls. *)
Ltac run_handler :=
  unfold run; unfold handleSubmit, resendEmail, update; simpl;
  repeat (rewrite ?run_from_try_finally, ?run_from_try_catch, ?run_from_bind,
                  ?run_saveLead, ?run_sendConfirmationEmail; simpl).

Section SubmitFlow.

Variable validateLeadForm : LeadInput -> list ValidationError.


(** C2: for a valid input, when persistence and notification both succeed,
    [handleSubmit] appends exactly one lead (the form data stamped with the
    clock), leaves both error channels null, switches to the submitted
    display state and clears the form. *)
Theorem submit_success (w : World) (st : State) :
  validateLeadForm (formData st) = [] ->
  failed (respond w (Insert "leads" (formData st))) = false ->
  failed (respond w (Invoke "send-confirmation" (formData st))) = false ->
  let r := run w (handleSubmit validateLeadForm st) st in
  outcome r = Returned tt /\
  leads (final r) = (leads st ++ [recorded st (clock w)])%list /\
  leadError (final r) = Js.Null /\
  emailError (final r) = Js.Null /\
  submitted (final r) = true /\
  formData (final r) = emptyForm /\
  isSubmitting (final r) = false /\
  trace r = [Insert "leads" (formData st); Invoke "send-confirmation" (formData st)].
Proof.
  intros Hvalid Hsave Hmail. run_handler. rewrite Hvalid. simpl. run_handler.
  rewrite !normalized_success, !Hsave. simpl. run_handler.
  rewrite !normalized_success, !Hmail. simpl.
  repeat split.
Qed.


(** C6: when the validator returns a non-empty list, [handleSubmit] stores
    that list as the per-field messages and stops: no request is issued and
    the session log, the form and the display state are as before. *)
Theorem invalid_input_makes_no_remote_call (w : World) (st : State) :
  validateLeadForm (formData st) <> [] ->
  let r := run w (handleSubmit validateLeadForm st) st in
  outcome r = Returned tt /\
  validationErrors (final r) = validateLeadForm (formData st) /\
  trace r = [] /\
  leads (final r) = leads st /\
  submitted (final r) = submitted st /\
  formData (final r) = formData st /\
  isSubmitting (final r) = isSubmitting st.
Proof.
  intros Hinvalid. run_handler.
  destruct (validateLeadForm (formData st)) as [| e errors]; [contradiction |].
  simpl. repeat split.
Qed.

End SubmitFlow.

(** ** The resend action *)

Lemma lastLead_snoc (older : list SubmittedLead) (l : SubmittedLead) :
  lastLead (older ++ [l])%list = Some l.
Proof.
  unfold lastLead. rewrite length_app. simpl.
  replace (length older + 1 - 1) with (length older) by lia.
  rewrite nth_error_app2 by lia. rewrite Nat.sub_diag. reflexivity.
Qed.

Lemma length_snoc_nonzero (older : list SubmittedLead) (l : SubmittedLead) :
  (length (older ++ [l])%list =? 0)%nat = false.
Proof. rewrite length_app. simpl. apply Nat.eqb_neq. lia. Qed.


(** C10: on an empty session log, [resendEmail] returns at once: no
    request is issued and the whole state is as before. *)
Theorem resend_on_empty_log_is_noop (w : World) (st : State) :
  leads st = [] ->
  run w (resendEmail st) st = mkRun st [] (Returned tt).
Proof.
  intros Hleads. unfold run, resendEmail. rewrite Hleads. reflexivity.
Qed.


(** ** The invariant of the component *)

Lemma keeps_resending_bind {A B : Type} (m : Async A) (f : A -> Async B) :
  keeps_resending m -> (forall a, keeps_resending (f a)) -> keeps_resending (x <- m ;; f x).
Proof.
  intros Hm Hf. induction m as [a | e | g k IH | q k IH | k IH]; simpl in *.
  - apply Hf.
  - exact I.
  - destruct Hm as [Hg Hk]. split; [exact Hg | exact (IH Hk)].
  - intros r. apply IH, Hm.
  - intros t. apply IH, Hm.
Qed.

Lemma keeps_resending_try_catch {A : Type} (m : Async A) (h : Js.value -> Async A) :
  keeps_resending m -> (forall e, keeps_resending (h e)) -> keeps_resending (try_catch m h).
Proof.
  intros Hm Hh. induction m as [a | e | g k IH | q k IH | k IH]; simpl in *.
  - exact I.
  - apply Hh.
  - destruct Hm as [Hg Hk]. split; [exact Hg | exact (IH Hk)].
  - intros r. apply IH, Hm.
  - intros t. apply IH, Hm.
Qed.

Lemma keeps_resending_try_finally {A : Type} (m : Async A) (fin : Async unit) :
  keeps_resending m -> keeps_resending fin -> keeps_resending (try_finally m fin).
Proof.
  intros Hm Hfin. induction m as [a | e | g k IH | q k IH | k IH]; simpl in *.
  - apply keeps_resending_bind; [exact Hfin | intros _; exact I].
  - apply keeps_resending_bind; [exact Hfin | intros _; exact I].
  - destruct Hm as [Hg Hk]. split; [exact Hg | exact (IH Hk)].
  - intros r. apply IH, Hm.
  - intros t. apply IH, Hm.
Qed.

Lemma keeps_resending_update (f : State -> State) :
  (forall s, isResendingEmail (f s) = isResendingEmail s) -> keeps_resending (update f).
Proof. intros Hf. simpl. split; [exact Hf | exact I]. Qed.

#[local] Transparent saveLead sendConfirmationEmail.

Lemma keeps_resending_saveLead (d : LeadInput) : keeps_resending (saveLead d).
Proof.
  unfold saveLead. apply keeps_resending_try_catch; [| intros e; exact I].
  simpl. intros [err | e]; simpl; [| exact I].
  destruct (Js.truthy err); [| exact I].
  unfold member. destruct (Js.nullish err); exact I.
Qed.

Lemma keeps_resending_sendConfirmationEmail (d : LeadInput) :
  keeps_resending (sendConfirmationEmail d).
Proof.
  unfold sendConfirmationEmail. apply keeps_resending_try_catch; [| intros e; exact I].
  simpl. intros [err | e]; simpl; [| exact I].
  destruct (Js.truthy err); [| exact I].
  unfold member. destruct (Js.nullish err); exact I.
Qed.

#[local] Opaque saveLead sendConfirmationEmail.

Lemma keeps_resending_handleSubmit (validateLeadForm : LeadInput -> list ValidationError)
  (r : State) : keeps_resending (handleSubmit validateLeadForm r).
Proof.
  unfold handleSubmit.
  repeat (apply keeps_resending_bind; [apply keeps_resending_update; reflexivity | intros _]).
  destruct (0 <? length (validateLeadForm (formData r)))%nat; [exact I |].
  apply keeps_resending_bind; [apply keeps_resending_update; reflexivity | intros _].
  apply keeps_resending_try_finally; [| apply keeps_resending_update; reflexivity].
  apply keeps_resending_try_catch; [| intros e; apply keeps_resending_update; reflexivity].
  apply keeps_resending_bind; [apply keeps_resending_saveLead | intros saveResult].
  destruct (negb (success saveResult)); [apply keeps_resending_update; reflexivity |].
  apply keeps_resending_bind; [apply keeps_resending_sendConfirmationEmail | intros emailResult].
  apply keeps_resending_bind.
  - destruct (negb (success emailResult)); [apply keeps_resending_update; reflexivity | exact I].
  - intros _. simpl. intros t. repeat split.
Qed.

Lemma keeps_resending_handleInputChange (r : State) (f : Field) (v : string) :
  keeps_resending (handleInputChange r f v).
Proof.
  unfold handleInputChange.
  apply keeps_resending_bind; [apply keeps_resending_update; reflexivity | intros _].
  destruct (existsb _ _); [apply keeps_resending_update; reflexivity | exact I].
Qed.

(** A segment of a program that keeps the flag keeps it, and so does what
    it suspends. *)
Lemma segment_keeps_resending (t : string) (p : Async unit) :
  keeps_resending p ->
  forall s,
    isResendingEmail (fst (segment t p s)) = isResendingEmail s /\
    (forall q k, snd (segment t p s) = Some (q, k) -> forall r, keeps_resending (k r)).
Proof.
  induction p as [a | e | g k IH | q k IH | k IH]; simpl; intros Hp s.
  - split; [reflexivity | discriminate].
  - split; [reflexivity | discriminate].
  - destruct Hp as [Hg Hk]. destruct (IH Hk (g s)) as [Hflag Hnext].
    split; [rewrite Hflag; apply Hg | exact Hnext].
  - split; [reflexivity |]. intros q' k' [= _ <-]. exact Hp.
  - apply (IH t (Hp t) s).
Qed.

#[local] Transparent saveLead sendConfirmationEmail.

(** The first segment of [resendEmail]: nothing on an empty log; otherwise
    the flag is raised, [emailError] cleared and the handler suspended at
    the email request, with a continuation that ends by lowering the
    flag. *)
Lemma segment_resendEmail (t : string) (r s : State) :
  (leads r = [] /\ segment t (resendEmail r) s = (s, None)) \/
  (exists q k,
      segment t (resendEmail r) s
        = (setEmailError Js.Null (setIsResendingEmail true s), Some (q, k)) /\
      is_email_request q = true /\
      finishes_resend k).
Proof.
  unfold resendEmail. destruct (leads r) as [| l0 ls] eqn:Hleads.
  - left. split; reflexivity.
  - right.
    destruct (lastLead (l0 :: ls)) as [l |] eqn:Hlast.
    + simpl length. simpl Nat.eqb. cbv iota. simpl.
      eexists. eexists. split; [reflexivity |]. split; [reflexivity |].
      intros reply t' s'. destruct reply as [err | e]; simpl.
      * destruct (Js.truthy err) eqn:Herr; simpl.
        -- unfold member. destruct (Js.nullish err); simpl; split; reflexivity.
        -- split; reflexivity.
      * split; reflexivity.
    + exfalso. unfold lastLead in Hlast. apply nth_error_None in Hlast.
      simpl in Hlast. lia.
Qed.

#[local] Opaque saveLead sendConfirmationEmail.

Lemma resends_in_flight_app (s : State) (a b : list Task) :
  resends_in_flight (mkSystem s (a ++ b)) =
  (resends_in_flight (mkSystem s a) ++ resends_in_flight (mkSystem s b))%list.
Proof. unfold resends_in_flight. simpl. apply filter_app. Qed.

Lemma invariant_initial : invariant (mkSystem initialState []).
Proof.
  constructor; simpl.
  - intros task [].
  - intros task [].
  - lia.
  - reflexivity.
Qed.

(** Only the pending handlers and the flag matter to the invariant. *)
Lemma invariant_same_flag (s s' : State) (tasks : list Task) :
  isResendingEmail s' = isResendingEmail s ->
  invariant (mkSystem s tasks) -> invariant (mkSystem s' tasks).
Proof.
  intros Hflag [Hothers Hresend Hcount Hf]. constructor; simpl in *; auto.
  rewrite Hflag. exact Hf.
Qed.

(** A segment of a handler that is not a resend and keeps the flag. *)
Lemma invariant_advance_other (o : Origin) (t : string) (p : Async unit)
  (s : State) (others : list Task) :
  o <> FromResend ->
  keeps_resending p ->
  invariant (mkSystem s others) ->
  invariant (advance o t p s others).
Proof.
  intros Ho Hp Hinv. unfold advance.
  destruct (segment_keeps_resending t p Hp s) as [Hflag Hnext].
  destruct (segment t p s) as [s' [[q k] |]]; simpl in *.
  - assert (Hnew : is_resend (mkTask o q k) = false)
      by (unfold is_resend; simpl; destruct o; congruence).
    destruct Hinv as [Hothers Hresend Hcount Hf]. constructor; simpl in *.
    + intros task Hin Htask. apply in_app_or in Hin as [Hin | [<- | []]].
      * now apply Hothers.
      * simpl. apply (Hnext q k eq_refl).
    + intros task Hin Htask. apply in_app_or in Hin as [Hin | [<- | []]].
      * now apply Hresend.
      * congruence.
    + rewrite resends_in_flight_app. unfold resends_in_flight at 2. simpl.
      rewrite Hnew, app_nil_r. exact Hcount.
    + rewrite resends_in_flight_app. unfold resends_in_flight at 2. simpl.
      rewrite Hnew, app_nil_r, Hflag. exact Hf.
  - now apply (invariant_same_flag s).
Qed.

(** Taking a handler that is not a resend out of the pending ones. *)
Lemma invariant_remove_other (s : State) (before after : list Task) (task : Task) :
  is_resend task = false ->
  invariant (mkSystem s (before ++ task :: after)) ->
  invariant (mkSystem s (before ++ after)).
Proof.
  intros Htask [Hothers Hresend Hcount Hf].
  assert (Hsame : resends_in_flight (mkSystem s (before ++ task :: after))
                  = resends_in_flight (mkSystem s (before ++ after))).
  { rewrite !resends_in_flight_app. f_equal.
    unfold resends_in_flight. simpl. rewrite Htask. reflexivity. }
  constructor; simpl in *.
  - intros x Hin. apply Hothers. apply in_app_or in Hin as [Hin | Hin];
      apply in_or_app; [left | right; right]; exact Hin.
  - intros x Hin. apply Hresend. apply in_app_or in Hin as [Hin | Hin];
      apply in_or_app; [left | right; right]; exact Hin.
  - rewrite <- Hsame. exact Hcount.
  - rewrite <- Hsame. exact Hf.
Qed.

(** The resend in flight settles: no resend is left and the flag is down. *)
Lemma invariant_settle_resend (t : string) (s : State) (before after : list Task)
  (task : Task) (reply : Reply) :
  is_resend task = true ->
  invariant (mkSystem s (before ++ task :: after)) ->
  invariant (advance (origin task) t (resume task reply) s (before ++ after)).
Proof.
  intros Htask [Hothers Hresend Hcount Hf]. simpl in *.
  assert (Hin : In task (before ++ task :: after)) by (apply in_or_app; right; left; reflexivity).
  destruct (proj2 (Hresend task Hin Htask) reply t s) as [Hdone Hflag].
  rewrite resends_in_flight_app in Hcount.
  unfold resends_in_flight at 2 in Hcount. simpl in Hcount. rewrite Htask in Hcount.
  rewrite length_app in Hcount. simpl in Hcount.
  assert (Hnone : resends_in_flight (mkSystem s (before ++ after)) = []).
  { rewrite resends_in_flight_app.
    destruct (resends_in_flight (mkSystem s before)); simpl in Hcount; [| lia].
    unfold resends_in_flight. simpl.
    destruct (filter is_resend after); simpl in Hcount; [reflexivity | lia]. }
  unfold advance. destruct (segment t (resume task reply) s) as [s' o]. simpl in *.
  subst o. constructor; simpl.
  - intros x Hx. apply Hothers. apply in_app_or in Hx as [Hx | Hx];
      apply in_or_app; [left | right; right]; exact Hx.
  - intros x Hx. apply Hresend. apply in_app_or in Hx as [Hx | Hx];
      apply in_or_app; [left | right; right]; exact Hx.
  - unfold resends_in_flight in *. simpl in *. rewrite Hnone. simpl. lia.
  - unfold resends_in_flight in *. simpl in *. rewrite Hnone. exact Hflag.
Qed.

(** A click on the retry button, which is enabled only with the flag
    down: one resend goes in flight and the flag goes up. *)
Lemma invariant_retry (t : string) (sys : System) :
  retry_enabled (ui sys) = true ->
  invariant sys ->
  invariant (advance FromResend t (resendEmail (ui sys)) (ui sys) (pending sys)).
Proof.
  intros Henabled Hinv. destruct sys as [s tasks]. simpl in *.
  unfold retry_enabled in Henabled.
  apply andb_prop in Henabled as [_ Hflag]. apply negb_true_iff in Hflag.
  unfold advance.
  destruct (segment_resendEmail t s s) as [[_ Hseg] | (q & k & Hseg & Hq & Hk)];
    rewrite Hseg.
  - exact Hinv.
  - destruct Hinv as [Hothers Hresend Hcount Hf]. simpl in *.
    rewrite Hflag in Hf. symmetry in Hf. apply negb_false_iff, Nat.eqb_eq in Hf.
    constructor; simpl.
    + intros task Hin Htask. apply in_app_or in Hin as [Hin | [<- | []]].
      * now apply Hothers.
      * discriminate Htask.
    + intros task Hin Htask. apply in_app_or in Hin as [Hin | [<- | []]].
      * now apply Hresend.
      * split; [exact Hq | exact Hk].
    + rewrite resends_in_flight_app, length_app. unfold resends_in_flight in *.
      simpl in *. rewrite Hf. simpl. lia.
    + rewrite resends_in_flight_app, length_app. unfold resends_in_flight in *.
      simpl in *. rewrite Hf. reflexivity.
Qed.

Lemma invariant_step (validateLeadForm : LeadInput -> list ValidationError)
  (sys sys' : System) :
  step validateLeadForm sys sys' -> invariant sys -> invariant sys'.
Proof.
  intros Hstep Hinv. destruct Hstep as
    [sys t Hform | sys t Hretry | sys Hsub | sys t f v Hform
     | sys t before after task reply Hpending].
  - apply invariant_advance_other; [discriminate | apply keeps_resending_handleSubmit |].
    destruct sys; exact Hinv.
  - now apply invariant_retry.
  - destruct sys as [s tasks]. now apply (invariant_same_flag s).
  - apply invariant_advance_other; [discriminate | apply keeps_resending_handleInputChange |].
    destruct sys; exact Hinv.
  - destruct sys as [s tasks]. simpl in *. subst tasks.
    destruct (is_resend task) eqn:Htask.
    + now apply invariant_settle_resend.
    + apply invariant_advance_other.
      * unfold is_resend in Htask. destruct (origin task); congruence.
      * destruct Hinv as [Hothers _ _ _]. apply Hothers; [| exact Htask].
        apply in_or_app. right. left. reflexivity.
      * now apply (invariant_remove_other s before after task).
Qed.

Lemma reachable_invariant (validateLeadForm : LeadInput -> list ValidationError)
  (sys : System) :
  reachable validateLeadForm sys -> invariant sys.
Proof.
  induction 1 as [| sys sys' _ IH Hstep].
  - exact invariant_initial.
  - exact (invariant_step validateLeadForm sys sys' Hstep IH).
Qed.

(** ** The executable events agree with the step relation *)

Lemma fire_step (validateLeadForm : LeadInput -> list ValidationError)
  (t : string) (e : Event) (sys sys' : System) :
  fire validateLeadForm t e sys = Some sys' -> step validateLeadForm sys sys'.
Proof.
  destruct e as [| | | f v | n reply]; simpl.
  - destruct (form_enabled (ui sys)) eqn:H; [| discriminate].
    intros [= <-]. now apply step_submit.
  - destruct (retry_enabled (ui sys)) eqn:H; [| discriminate].
    intros [= <-]. now apply step_retry.
  - destruct (submitted (ui sys)) eqn:H; [| discriminate].
    intros [= <-]. now apply step_another.
  - destruct (form_enabled (ui sys)) eqn:H; [| discriminate].
    intros [= <-]. now apply step_change.
  - destruct (skipn n (pending sys)) as [| task after] eqn:H; [discriminate |].
    intros [= <-]. apply step_settle.
    rewrite <- H. symmetry. apply firstn_skipn.
Qed.

Lemma play_reachable (validateLeadForm : LeadInput -> list ValidationError)
  (t : string) (events : list Event) :
  forall sys sys',
    reachable validateLeadForm sys ->
    play validateLeadForm t events sys = Some sys' ->
    reachable validateLeadForm sys'.
Proof.
  induction events as [| e rest IH]; simpl; intros sys sys' Hsys.
  - intros [= <-]. exact Hsys.
  - destruct (fire validateLeadForm t e sys) as [mid |] eqn:Hfire; [| discriminate].
    apply IH. apply (reachable_step validateLeadForm sys mid Hsys).
    now apply (fire_step validateLeadForm t e).
Qed.

(** C5: in every reachable state of the component at most one resend is in
    flight, and it is an invocation of the email function;
    [isResendingEmail] is true exactly while one is; while it is true the
    retry button is disabled, so no event starts a second resend: no step
    taken then adds a resend to those in flight. *)
Theorem one_resend_in_flight (validateLeadForm : LeadInput -> list ValidationError)
  (sys : System) :
  reachable validateLeadForm sys ->
  length (resends_in_flight sys) <= 1 /\
  (forall task, In task (resends_in_flight sys) ->
                is_email_request (request task) = true) /\
  (isResendingEmail (ui sys) = true <-> length (resends_in_flight sys) = 1) /\
  (isResendingEmail (ui sys) = true -> retry_enabled (ui sys) = false) /\
  (isResendingEmail (ui sys) = true ->
   forall sys', step validateLeadForm sys sys' ->
                length (resends_in_flight sys') <= length (resends_in_flight sys)).
Proof.
  intros Hreach.
  pose proof (reachable_invariant validateLeadForm sys Hreach) as [_ Hresend Hcount Hflag].
  assert (Hiff : isResendingEmail (ui sys) = true <-> length (resends_in_flight sys) = 1).
  { rewrite Hflag. destruct (length (resends_in_flight sys)) as [| [| n]]; simpl.
    - split; [discriminate | lia].
    - split; reflexivity.
    - lia. }
  repeat split.
  - exact Hcount.
  - intros task Hin. apply filter_In in Hin as [Hin Htask].
    apply (Hresend task Hin Htask).
  - apply Hiff.
  - apply Hiff.
  - intros Hon. unfold retry_enabled. rewrite Hon. simpl. apply andb_false_r.
  - intros Hon sys' Hstep.
    apply Hiff in Hon. rewrite Hon.
    apply (reachable_invariant validateLeadForm sys').
    now apply (reachable_step validateLeadForm sys sys').
Qed.

(** ** Results and error values of the wrappers *)

(** C7: whatever the remote operation does, both wrappers return a result
    that satisfies the OperationResult invariant: with [success] true there
    is no [error], and an [error] is present only with [success] false. *)
Theorem wrappers_keep_result_invariant (w : World) (d : LeadInput) (s : State) :
  (exists res, outcome (run w (saveLead d) s) = Returned res /\
               result_invariant res = true /\
               (success res = true -> error res = None) /\
               (error res <> None -> success res = false)) /\
  (exists res, outcome (run w (sendConfirmationEmail d) s) = Returned res /\
               result_invariant res = true /\
               (success res = true -> error res = None) /\
               (error res <> None -> success res = false)).
Proof.
  unfold run. rewrite run_saveLead, run_sendConfirmationEmail. simpl.
  split; eexists; (split; [reflexivity |]);
    (split; [apply normalized_invariant |]);
    match goal with |- context [normalized ?a ?b ?r] => destruct r as [err | e] end;
    simpl; try destruct (Js.truthy err); simpl; split; congruence.
Qed.

(** ** The properties at concrete inputs *)

#[local] Transparent saveLead sendConfirmationEmail.


Lemma submit_success_witness :
  let w := world (Resolves Js.Null) (Resolves Js.Null) "T" in
  let r := run w (handleSubmit requireAll filled) filled in
  requireAll (formData filled) = [] /\
  outcome r = Returned tt /\
  leads (final r) = [mkSubmittedLead "Ana" "ana@x.com" "finance" "T"] /\
  leadError (final r) = Js.Null /\
  emailError (final r) = Js.Null /\
  submitted (final r) = true /\
  formData (final r) = emptyForm /\
  isSubmitting (final r) = false /\
  trace r = [Insert "leads" ana; Invoke "send-confirmation" ana].
Proof.
  cbv zeta. split; [reflexivity |].
  exact (submit_success requireAll (world (Resolves Js.Null) (Resolves Js.Null) "T")
           filled eq_refl eq_refl eq_refl).
Defined.


Lemma invalid_input_makes_no_remote_call_witness :
  let w := world (Resolves Js.Null) (Resolves Js.Null) "T" in
  let st := setFormData (fun _ => mkLeadInput "Ana" EmptyString "finance") initialState in
  let r := run w (handleSubmit requireAll st) st in
  requireAll (formData st) <> [] /\
  outcome r = Returned tt /\
  validationErrors (final r) = [mkValidationError "email" "Email is required"] /\
  trace r = [] /\
  leads (final r) = [] /\
  submitted (final r) = false /\
  formData (final r) = mkLeadInput "Ana" EmptyString "finance" /\
  isSubmitting (final r) = false.
Proof.
  cbv zeta. split; [discriminate |].
  refine (invalid_input_makes_no_remote_call requireAll
            (world (Resolves Js.Null) (Resolves Js.Null) "T")
            (setFormData (fun _ => mkLeadInput "Ana" EmptyString "finance") initialState) _).
  discriminate.
Defined.


Lemma resend_on_empty_log_is_noop_witness :
  let st := mkState emptyForm [] true false false Js.Null (Js.Str "rate limited") [] in
  let w := world (Resolves Js.Null) (Resolves Js.Null) "T" in
  leads st = [] /\ run w (resendEmail st) st = mkRun st [] (Returned tt).
Proof.
  cbv zeta. split; [reflexivity |].
  exact (resend_on_empty_log_is_noop
           (world (Resolves Js.Null) (Resolves Js.Null) "T")
           (mkState emptyForm [] true false false Js.Null (Js.Str "rate limited") [])
           eq_refl).
Defined.

Lemma one_resend_in_flight_witness :
  play requireAll "T" retrying (mkSystem initialState []) = Some (after retrying) /\
  isResendingEmail (ui (after retrying)) = true /\
  length (resends_in_flight (after retrying)) = 1 /\
  retry_enabled (ui (after retrying)) = false /\
  (forall sys', step requireAll (after retrying) sys' ->
                length (resends_in_flight sys') <= 1).
Proof.
  assert (Hplay : play requireAll "T" retrying (mkSystem initialState [])
                  = Some (after retrying)) by reflexivity.
  pose proof (one_resend_in_flight requireAll (after retrying)
                (play_reachable requireAll "T" retrying _ _
                   (reachable_init requireAll) Hplay))
    as (_ & _ & Hiff & Hdisabled & Hnext).
  assert (Hflag : isResendingEmail (ui (after retrying)) = true) by reflexivity.
  split; [exact Hplay |]. split; [exact Hflag |].
  split; [apply Hiff, Hflag |]. split; [exact (Hdisabled Hflag) |].
  intros sys' Hstep. rewrite <- (proj1 Hiff Hflag). exact (Hnext Hflag sys' Hstep).
Defined.

Lemma wrappers_keep_result_invariant_witness :
  let w := world (Rejects Js.Undefined) (Resolves (with_message (Js.Str EmptyString))) "T" in
  outcome (run w (saveLead ana) filled)
    = Returned (mkResult false (Some (Js.Str "Unexpected error while saving lead."))) /\
  outcome (run w (sendConfirmationEmail ana) filled)
    = Returned (mkResult false (Some (Js.Str "Failed to send confirmation email."))) /\
  (exists res, outcome (run w (saveLead ana) filled) = Returned res /\
               result_invariant res = true /\
               (success res = true -> error res = None) /\
               (error res <> None -> success res = false)) /\
  (exists res, outcome (run w (sendConfirmationEmail ana) filled) = Returned res /\
               result_invariant res = true /\
               (success res = true -> error res = None) /\
               (error res <> None -> success res = false)).
Proof.
  cbv zeta. split; [reflexivity |]. split; [reflexivity |].
  exact (wrappers_keep_result_invariant
           (world (Rejects Js.Undefined) (Resolves (with_message (Js.Str EmptyString))) "T")
           ana filled).
Defined.

(** C9: the remote call throws an object whose [message] is the number
    42: each wrapper catches it and returns a failure, but the [error] of
    the result is the number, not a string. *)
Theorem thrown_message_not_a_string :
  let w := world (Rejects (with_message (Js.Number 42)))
                 (Rejects (with_message (Js.Number 42))) "T" in
  respond w (Insert "leads" ana) = Rejects (with_message (Js.Number 42)) /\
  getErrorMessage (with_message (Js.Number 42)) "Unexpected error while saving lead."
    = Js.Number 42 /\
  outcome (run w (saveLead ana) filled)
    = Returned (mkResult false (Some (Js.Number 42))) /\
  outcome (run w (sendConfirmationEmail ana) filled)
    = Returned (mkResult false (Some (Js.Number 42))) /\
  Js.is_string (Js.Number 42) = false /\
  (forall text, outcome (run w (saveLead ana) filled)
                <> Returned (mkResult false (Some (Js.Str text)))).
Proof.
  cbv zeta. repeat (split; [reflexivity |]). intros text. vm_compute. discriminate.
Qed.

(** C8: the insert rejects with an object whose [message] is the object
    [{ code: 503 }]: [getErrorMessage] returns that object, [leadError]
    holds it instead of a string, and the form view, which has
    [{leadError}] as a child of its alert, throws on render. *)
Theorem surfaced_error_not_a_string :
  let code := Js.Object [("code", Js.Number 503)] in
  let w := world (Rejects (with_message code)) (Resolves Js.Null) "T" in
  let r := run w (handleSubmit requireAll filled) filled in
  requireAll (formData filled) = [] /\
  getErrorMessage (with_message code) "Unexpected error while saving lead." = code /\
  outcome r = Returned tt /\
  leadError (final r) = code /\
  Js.is_string (leadError (final r)) = false /\
  (forall text, leadError (final r) <> Js.Str text) /\
  render (final r) = None.
Proof.
  cbv zeta. repeat (split; [reflexivity |]). split; [| reflexivity].
  intros text. vm_compute. discriminate.
Qed.

(** A function as the error: React calls it as an updater, so the cell
    holds what the call returns, here [undefined], and no alert is
    shown. *)
Lemma function_error_is_applied :
  let dropped := Js.Func [] Js.Undefined in
  let w := world (Resolves (with_message dropped)) (Resolves Js.Null) "T" in
  let r := run w (handleSubmit requireAll filled) filled in
  outcome (run w (saveLead ana) filled) = Returned (mkResult false (Some dropped)) /\
  leadError (final r) = Js.Undefined /\
  submitted (final r) = false /\
  render (final r)
  = Some (FormView false None ana None None None false).
Proof. cbv zeta. repeat split. Qed.

(** * Further properties of the component *)

(** ** Editing the form *)

Lemma find_none_existsb (g : ValidationError -> bool) (errors : list ValidationError) :
  existsb g errors = false -> find g errors = None.
Proof.
  induction errors as [| e rest IH]; simpl; [reflexivity |].
  destruct (g e); simpl; [discriminate | exact IH].
Qed.

Lemma filter_none_existsb (g : ValidationError -> bool) (errors : list ValidationError) :
  existsb g errors = false -> filter (fun e => negb (g e)) errors = errors.
Proof.
  induction errors as [| e rest IH]; simpl; [reflexivity |].
  destruct (g e); simpl; [discriminate |]. intros H. now rewrite IH.
Qed.

Lemma find_filter_same (f : string) (errors : list ValidationError) :
  find (fun e => field e =? f) (filter (fun e => negb (field e =? f)) errors) = None.
Proof.
  induction errors as [| e rest IH]; simpl; [reflexivity |].
  destruct (field e =? f) eqn:He; simpl; [exact IH |]. now rewrite He.
Qed.

Lemma find_filter_other (f g : string) (errors : list ValidationError) :
  g <> f ->
  find (fun e => field e =? g) (filter (fun e => negb (field e =? f)) errors)
  = find (fun e => field e =? g) errors.
Proof.
  intros Hne. induction errors as [| e rest IH]; simpl; [reflexivity |].
  destruct (field e =? f) eqn:Hf; simpl.
  - apply String.eqb_eq in Hf. destruct (String.eqb_spec (field e) g) as [Hg |]; [| exact IH].
    congruence.
  - destruct (field e =? g); [reflexivity | exact IH].
Qed.

(** The state [handleInputChange] leaves, by cases on whether the edited
    field has an error. *)
Lemma run_handleInputChange (w : World) (st : State) (f : Field) (v : string) :
  run w (handleInputChange st f v) st =
  mkRun (setValidationErrors (filter (fun e => negb (field e =? field_name f)))
           (setFormData (with_field f v) st))
        [] (Returned tt).
Proof.
  unfold run, handleInputChange, update. simpl.
  destruct (existsb (fun e => field e =? field_name f) (validationErrors st)) eqn:Hsome;
    simpl; [reflexivity |].
  unfold setValidationErrors. simpl.
  rewrite (filter_none_existsb (fun e => field e =? field_name f)) by exact Hsome.
  reflexivity.
Qed.

(** X1: editing a field stores the value in that field of the form only,
    removes every validation error of that field and leaves the message
    shown for any other field as it was; no request is issued and the rest
    of the state is untouched. *)
Theorem edit_clears_only_own_errors (w : World) (st : State) (f : Field) (v : string) :
  let r := run w (handleInputChange st f v) st in
  outcome r = Returned tt /\
  trace r = [] /\
  formData (final r) = with_field f v (formData st) /\
  getFieldError (final r) (field_name f) = None /\
  (forall g, g <> field_name f -> getFieldError (final r) g = getFieldError st g) /\
  (forall e, In e (validationErrors (final r)) <->
             In e (validationErrors st) /\ field e <> field_name f) /\
  submitted (final r) = submitted st /\
  leads (final r) = leads st /\
  leadError (final r) = leadError st /\
  emailError (final r) = emailError st /\
  isSubmitting (final r) = isSubmitting st /\
  isResendingEmail (final r) = isResendingEmail st.
Proof.
  cbv zeta. rewrite run_handleInputChange. simpl. unfold getFieldError. simpl.
  repeat apply conj; try reflexivity.
  - now rewrite find_filter_same.
  - intros g Hg. now rewrite find_filter_other.
  - intros e. rewrite filter_In, negb_true_iff. split; intros [Hin Hf]; split; try exact Hin.
    + intros Heq. apply String.eqb_eq in Heq. congruence.
    + apply String.eqb_neq. exact Hf.
Qed.

Lemma with_field_commute (f g : Field) (v u : string) (d : LeadInput) :
  f <> g -> with_field g u (with_field f v d) = with_field f v (with_field g u d).
Proof. destruct f, g; simpl; intros H; congruence. Qed.

Lemma with_field_overwrite (f : Field) (v u : string) (d : LeadInput) :
  with_field f u (with_field f v d) = with_field f u d.
Proof. destruct f; reflexivity. Qed.

Lemma filter_swap (g h : ValidationError -> bool) (errors : list ValidationError) :
  filter g (filter h errors) = filter h (filter g errors).
Proof.
  induction errors as [| e rest IH]; simpl; [reflexivity |].
  destruct (h e) eqn:Hh, (g e) eqn:Hg; simpl; rewrite ?Hh, ?Hg, IH; reflexivity.
Qed.

Lemma filter_twice (g : ValidationError -> bool) (errors : list ValidationError) :
  filter g (filter g errors) = filter g errors.
Proof.
  induction errors as [| e rest IH]; simpl; [reflexivity |].
  destruct (g e) eqn:Hg; simpl; rewrite ?Hg, IH; reflexivity.
Qed.

(** X2: edits compose: two edits of different fields, each handled by the
    render that follows the previous one, give the same state in either
    order, and a second edit of the same field gives the state of that edit
    alone. *)
Theorem edits_commute_and_overwrite (w : World) (st : State) (f g : Field) (v u : string) :
  let edit := fun s h x => final (run w (handleInputChange s h x) s) in
  (f <> g -> edit (edit st f v) g u = edit (edit st g u) f v) /\
  edit (edit st f v) f u = edit st f u.
Proof.
  cbv beta zeta. repeat (rewrite run_handleInputChange; simpl). split.
  - intros Hfg. unfold setValidationErrors, setFormData. simpl.
    rewrite (with_field_commute f g v u) by exact Hfg. f_equal. apply filter_swap.
  - unfold setValidationErrors, setFormData. simpl.
    rewrite with_field_overwrite. f_equal. apply filter_twice.
Qed.

(** ** What a submission records *)

#[local] Opaque saveLead sendConfirmationEmail.

(** The run of [handleSubmit] on a form that passes validation, when the
    insert succeeds: the notifier decides [emailError] alone. *)
Lemma run_handleSubmit_persisted
  (validateLeadForm : LeadInput -> list ValidationError) (w : World) (st : State) :
  validateLeadForm (formData st) = [] ->
  failed (respond w (Insert "leads" (formData st))) = false ->
  let r := run w (handleSubmit validateLeadForm st) st in
  outcome r = Returned tt /\
  trace r = [Insert "leads" (formData st); Invoke "send-confirmation" (formData st)] /\
  leads (final r) = (leads st ++ [recorded st (clock w)])%list /\
  submitted (final r) = true /\
  formData (final r) = emptyForm /\
  leadError (final r) = Js.Null /\
  isSubmitting (final r) = false /\
  isResendingEmail (final r) = isResendingEmail st.
Proof.
  intros Hvalid Hsave. run_handler. rewrite Hvalid. simpl. run_handler.
  rewrite !normalized_success, !Hsave. simpl. run_handler.
  destruct (success (normalized "Failed to send confirmation email."
                       "Unexpected error while sending email."
                       (respond w (Invoke "send-confirmation" (formData st)))));
    simpl; repeat split.
Qed.

(** The run of [handleSubmit] that records nothing: the form fails
    validation or the insert fails. *)
Lemma run_handleSubmit_not_persisted
  (validateLeadForm : LeadInput -> list ValidationError) (w : World) (st : State) :
  validateLeadForm (formData st) <> [] \/
  failed (respond w (Insert "leads" (formData st))) = true ->
  let r := run w (handleSubmit validateLeadForm st) st in
  outcome r = Returned tt /\
  (forall fn body, ~ In (Invoke fn body) (trace r)) /\
  leads (final r) = leads st /\
  submitted (final r) = submitted st /\
  formData (final r) = formData st /\
  emailError (final r) = Js.Null /\
  isResendingEmail (final r) = isResendingEmail st.
Proof.
  intros Hwhy. run_handler.
  destruct (validateLeadForm (formData st)) as [| e errors] eqn:Hvalid; simpl.
  - destruct Hwhy as [Hwhy | Hsave]; [contradiction |].
    run_handler. rewrite !normalized_success, !Hsave. simpl.
    repeat split. intros fn body [Heq | []]. discriminate Heq.
  - repeat split. intros fn body [].
Qed.

(** X3: whatever the notifier does, [handleSubmit] records a lead, shows
    the success view and clears the form exactly when the form passes
    validation and the insert succeeds; otherwise the session log, the view
    and the form are as before and the email function is not invoked.  In
    both cases [isResendingEmail] is untouched. *)
Theorem lead_recorded_iff_persisted
  (validateLeadForm : LeadInput -> list ValidationError) (w : World) (st : State) :
  let r := run w (handleSubmit validateLeadForm st) st in
  let persisted :=
    match validateLeadForm (formData st) with
    | [] => negb (failed (respond w (Insert "leads" (formData st))))
    | _ :: _ => false
    end in
  outcome r = Returned tt /\
  leads (final r) =
    (if persisted then (leads st ++ [recorded st (clock w)])%list else leads st) /\
  submitted (final r) = (if persisted then true else submitted st) /\
  formData (final r) = (if persisted then emptyForm else formData st) /\
  (persisted = true <-> In (Invoke "send-confirmation" (formData st)) (trace r)) /\
  isResendingEmail (final r) = isResendingEmail st.
Proof.
  cbv zeta.
  destruct (validateLeadForm (formData st)) as [| e errors] eqn:Hvalid.
  - destruct (failed (respond w (Insert "leads" (formData st)))) eqn:Hsave; simpl.
    + destruct (run_handleSubmit_not_persisted validateLeadForm w st)
        as (Hout & Hnone & Hleads & Hsub & Hform & _ & Hflag).
      { right. exact Hsave. }
      repeat split; try assumption; [discriminate |].
      intros Hin. now apply Hnone in Hin.
    + destruct (run_handleSubmit_persisted validateLeadForm w st Hvalid Hsave)
        as (Hout & Htrace & Hleads & Hsub & Hform & _ & _ & Hflag).
      repeat split; try assumption.
      intros _. rewrite Htrace. right. left. reflexivity.
  - destruct (run_handleSubmit_not_persisted validateLeadForm w st)
      as (Hout & Hnone & Hleads & Hsub & Hform & _ & Hflag).
    { left. rewrite Hvalid. discriminate. }
    repeat split; try assumption; [discriminate |].
    intros Hin. now apply Hnone in Hin.
Qed.

(** X4: a retry after a submission re-sends what was submitted: when
    [handleSubmit] has recorded the form of [st], the one request of
    [resendEmail] in the state it leaves is the email function with the
    name, email and industry the form had at the submission, although the
    form has been cleared since; the log and the cleared form stay as they
    are and a successful retry leaves [emailError] null. *)
Theorem retry_resends_submitted_form
  (validateLeadForm : LeadInput -> list ValidationError) (w w' : World) (st : State) :
  validateLeadForm (formData st) = [] ->
  failed (respond w (Insert "leads" (formData st))) = false ->
  let st1 := final (run w (handleSubmit validateLeadForm st) st) in
  let r := run w' (resendEmail st1) st1 in
  outcome r = Returned tt /\
  trace r = [Invoke "send-confirmation" (formData st)] /\
  leads (final r) = (leads st ++ [recorded st (clock w)])%list /\
  formData (final r) = emptyForm /\
  submitted (final r) = true /\
  isResendingEmail (final r) = false /\
  (failed (respond w' (Invoke "send-confirmation" (formData st))) = false ->
   emailError (final r) = Js.Null).
Proof.
  intros Hvalid Hsave. cbv zeta.
  destruct (run_handleSubmit_persisted validateLeadForm w st Hvalid Hsave)
    as (_ & _ & Hleads & Hsub & Hform & _ & _ & _).
  set (st1 := final (run w (handleSubmit validateLeadForm st) st)) in *.
  assert (Hinput : input_of (recorded st (clock w)) = formData st)
    by (unfold input_of, recorded; simpl; apply lead_input_eta).
  clearbody st1. unfold run, resendEmail, update.
  rewrite Hleads, length_snoc_nonzero, lastLead_snoc.
  fold (input_of (recorded st (clock w))). rewrite Hinput. simpl.
  run_handler. rewrite !normalized_success.
  destruct (failed (respond w' (Invoke "send-confirmation" (formData st)))); simpl;
    rewrite Hleads, Hsub, Hform; repeat split; discriminate.
Qed.

(** X5: a failure that carries no object surfaces the wrapper's fixed
    text: when the remote call throws a value whose [typeof] is not
    ['object'] (a string, a number, a boolean, [undefined], a function) or
    throws [null], the result carries the wrapper's message for unexpected
    errors, and when the response's [error] is a truthy primitive it
    carries the wrapper's message for failures; the thrown text itself is
    not surfaced. *)
Theorem failure_without_object_surfaces_fallback (w : World) (d : LeadInput) (s : State) :
  (forall e, respond w (Insert "leads" d) = Rejects e ->
             Js.typeof e <> "object" \/ e = Js.Null ->
             outcome (run w (saveLead d) s)
             = Returned (mkResult false (Some (Js.Str "Unexpected error while saving lead.")))) /\
  (forall err, respond w (Insert "leads" d) = Resolves err ->
               Js.truthy err = true ->
               Js.typeof err <> "object" -> Js.typeof err <> "function" ->
               outcome (run w (saveLead d) s)
               = Returned (mkResult false (Some (Js.Str "Failed to save lead.")))) /\
  (forall e, respond w (Invoke "send-confirmation" d) = Rejects e ->
             Js.typeof e <> "object" \/ e = Js.Null ->
             outcome (run w (sendConfirmationEmail d) s)
             = Returned (mkResult false (Some (Js.Str "Unexpected error while sending email.")))) /\
  (forall err, respond w (Invoke "send-confirmation" d) = Resolves err ->
               Js.truthy err = true ->
               Js.typeof err <> "object" -> Js.typeof err <> "function" ->
               outcome (run w (sendConfirmationEmail d) s)
               = Returned (mkResult false (Some (Js.Str "Failed to send confirmation email.")))).
Proof.
  assert (Hthrown : forall e fallback,
             Js.typeof e <> "object" \/ e = Js.Null ->
             getErrorMessage e fallback = Js.Str fallback).
  { intros e fallback [Htype | ->]; [| reflexivity].
    unfold getErrorMessage, carried_message.
    destruct (String.eqb_spec (Js.typeof e) "object") as [Heq |]; [contradiction |].
    rewrite andb_false_r. reflexivity. }
  assert (Hprimitive : forall err fallback,
             Js.typeof err <> "object" -> Js.typeof err <> "function" ->
             Js.or (Js.prop err "message") (Js.Str fallback) = Js.Str fallback).
  { intros err fallback Hobject Hfunction.
    destruct err; simpl in *; try reflexivity; congruence. }
  unfold run. rewrite run_saveLead, run_sendConfirmationEmail. simpl.
  repeat apply conj.
  - intros e -> Htype. simpl. now rewrite Hthrown.
  - intros err -> Htruthy Hobject Hfunction. simpl. rewrite Htruthy.
    now rewrite Hprimitive.
  - intros e -> Htype. simpl. now rewrite Hthrown.
  - intros err -> Htruthy Hobject Hfunction. simpl. rewrite Htruthy.
    now rewrite Hprimitive.
Qed.

(** ** Segments of the handlers *)

Lemma segment_conts (P : Async unit -> Prop) (p : Async unit) :
  conts_satisfy P p ->
  forall t s q k, snd (segment t p s) = Some (q, k) ->
                  forall r, P (k r) /\ conts_satisfy P (k r).
Proof.
  induction p as [a | e | g k IH | q k IH | k IH]; simpl; intros Hp t s q' k' Hseg.
  - discriminate.
  - discriminate.
  - exact (IH Hp t (g s) q' k' Hseg).
  - injection Hseg as _ <-. exact Hp.
  - exact (IH t (Hp t) t s q' k' Hseg).
Qed.

Lemma conts_satisfy_weaken (P Q : Async unit -> Prop) (p : Async unit) :
  (forall p', P p' -> Q p') -> conts_satisfy P p -> conts_satisfy Q p.
Proof.
  intros HPQ. induction p as [a | e | g k IH | q k IH | k IH]; simpl; auto.
  intros Hp r. destruct (Hp r) as [HP Hrest]. split; [now apply HPQ | now apply IH].
Qed.

Lemma ui_advance (o : Origin) (t : string) (p : Async unit) (s : State)
  (others : list Task) :
  ui (advance o t p s others) = fst (segment t p s).
Proof.
  unfold advance. destruct (segment t p s) as [s' [[q k] |]]; reflexivity.
Qed.

Lemma pending_advance (o : Origin) (t : string) (p : Async unit) (s : State)
  (others : list Task) :
  pending (advance o t p s others) =
  match snd (segment t p s) with
  | Some (q, k) => (others ++ [mkTask o q k])%list
  | None => others
  end.
Proof.
  unfold advance. destruct (segment t p s) as [s' [[q k] |]]; reflexivity.
Qed.

#[local] Transparent saveLead sendConfirmationEmail.

(** Case analysis along the tree of a handler: the replies, the tests of
    the wrappers and the conjunctions of the goal. *)
Ltac walk :=
  repeat (simpl in *; intros;
          match goal with
          | |- _ /\ _ => split
          | |- True => exact I
          | r : Reply |- _ => destruct r
          | |- context [member ?e _] => unfold member
          | |- context [if Js.nullish ?e then _ else _] => destruct (Js.nullish e)
          | |- context [if Js.truthy ?e then _ else _] => destruct (Js.truthy e)
          end).

Lemma handleSubmit_logging (validateLeadForm : LeadInput -> list ValidationError)
  (r : State) :
  logging_segment validateLeadForm r (handleSubmit validateLeadForm r) /\
  conts_satisfy (logging_segment validateLeadForm r) (handleSubmit validateLeadForm r).
Proof.
  unfold handleSubmit, logging_segment, keeps_or_records, update.
  destruct (validateLeadForm (formData r)) as [| e errors] eqn:Hvalid.
  - walk; try (left; split; reflexivity).
    all: right; split; [reflexivity |]; split; [reflexivity |]; eexists; reflexivity.
  - walk. left. split; reflexivity.
Qed.

Lemma resendEmail_logging (validateLeadForm : LeadInput -> list ValidationError)
  (r : State) :
  logging_segment validateLeadForm r (resendEmail r) /\
  conts_satisfy (logging_segment validateLeadForm r) (resendEmail r).
Proof.
  unfold resendEmail, logging_segment, keeps_or_records, update.
  destruct (length (leads r) =? 0)%nat.
  - walk. left. split; reflexivity.
  - destruct (lastLead (leads r)) as [l |]; walk; left; split; reflexivity.
Qed.

Lemma handleInputChange_logging (validateLeadForm : LeadInput -> list ValidationError)
  (r : State) (f : Field) (v : string) :
  logging_segment validateLeadForm r (handleInputChange r f v) /\
  conts_satisfy (logging_segment validateLeadForm r) (handleInputChange r f v).
Proof.
  unfold handleInputChange, logging_segment, keeps_or_records, update.
  destruct (existsb _ _); walk; left; split; reflexivity.
Qed.

#[local] Opaque saveLead sendConfirmationEmail.

(** ** State invariants carried by the view and the session log *)

Section LoggingInvariant.

Variable validateLeadForm : LeadInput -> list ValidationError.

(** A property of the state that survives whatever a segment may do to
    the view and the log, and the return to the form. *)
Variable I : State -> Prop.
Hypothesis I_closed : forall r s s', I s -> keeps_or_records validateLeadForm r s s' -> I s'.
Hypothesis I_another : forall s, I s -> I (setSubmitted false s).

Lemma logging_keeps_invariant (r : State) (p : Async unit) :
  logging_segment validateLeadForm r p -> keeps_invariant I p.
Proof. intros Hp t s Hs. exact (I_closed r s _ Hs (Hp t s)). Qed.

Lemma logging_handler_keeps (r : State) (p : Async unit) :
  logging_segment validateLeadForm r p /\
  conts_satisfy (logging_segment validateLeadForm r) p ->
  keeps_invariant I p /\ conts_satisfy (keeps_invariant I) p.
Proof.
  intros [Hfirst Hconts]. split.
  - now apply (logging_keeps_invariant r).
  - apply (conts_satisfy_weaken (logging_segment validateLeadForm r)); [| exact Hconts].
    intros p'. apply logging_keeps_invariant.
Qed.

Lemma advance_keeps (o : Origin) (t : string) (p : Async unit) (s : State)
  (others : list Task) :
  keeps_invariant I p /\ conts_satisfy (keeps_invariant I) p ->
  tasks_keep I (mkSystem s others) ->
  tasks_keep I (advance o t p s others) /\
  (I s -> I (ui (advance o t p s others))).
Proof.
  intros [Hfirst Hconts] Htasks. split.
  - intros task. rewrite pending_advance.
    destruct (snd (segment t p s)) as [[q k] |] eqn:Hseg; [| apply Htasks].
    intros Hin. apply in_app_or in Hin as [Hin | [<- | []]]; [now apply Htasks |].
    simpl. exact (segment_conts _ p Hconts t s q k Hseg).
  - rewrite ui_advance. apply Hfirst.
Qed.

Lemma tasks_keep_remove (s : State) (before after : list Task) (task : Task) :
  tasks_keep I (mkSystem s (before ++ task :: after)) ->
  tasks_keep I (mkSystem s (before ++ after)).
Proof.
  intros Htasks x Hin. apply Htasks. simpl in *.
  apply in_app_or in Hin as [Hin | Hin]; apply in_or_app; [left | right; right]; exact Hin.
Qed.

Lemma logging_step (sys sys' : System) :
  step validateLeadForm sys sys' ->
  tasks_keep I sys ->
  tasks_keep I sys' /\ (I (ui sys) -> I (ui sys')).
Proof.
  intros Hstep Htasks. destruct Hstep as
    [sys t Hform | sys t Hretry | sys Hsub | sys t f v Hform
     | sys t before after task reply Hpending].
  - apply advance_keeps; [| destruct sys; exact Htasks].
    apply (logging_handler_keeps (ui sys)), handleSubmit_logging.
  - apply advance_keeps; [| destruct sys; exact Htasks].
    apply (logging_handler_keeps (ui sys)), resendEmail_logging.
  - split; [exact Htasks | apply I_another].
  - apply advance_keeps; [| destruct sys; exact Htasks].
    apply (logging_handler_keeps (ui sys)), handleInputChange_logging.
  - destruct sys as [s tasks]. simpl in *. subst tasks.
    apply advance_keeps.
    + apply Htasks. simpl. apply in_or_app. right. left. reflexivity.
    + now apply (tasks_keep_remove s before after task).
Qed.

Lemma reachable_tasks_keep (sys : System) :
  reachable validateLeadForm sys -> tasks_keep I sys.
Proof.
  induction 1 as [| sys sys' _ IH Hstep].
  - intros task [].
  - exact (proj1 (logging_step sys sys' Hstep IH)).
Qed.

Lemma reachable_logging_invariant (sys : System) :
  I initialState -> reachable validateLeadForm sys -> I (ui sys).
Proof.
  intros Hinit. induction 1 as [| sys sys' Hreach IH Hstep].
  - exact Hinit.
  - exact (proj2 (logging_step sys sys' Hstep (reachable_tasks_keep sys Hreach)) IH).
Qed.

Lemma steps_logging_invariant (sys sys' : System) :
  reachable validateLeadForm sys ->
  steps validateLeadForm sys sys' ->
  I (ui sys) -> I (ui sys').
Proof.
  intros Hreach Hsteps. induction Hsteps as [sys | sys mid sys' Hstep _ IH].
  - exact (fun H => H).
  - intros Hs. apply IH.
    + exact (reachable_step validateLeadForm sys mid Hreach Hstep).
    + exact (proj2 (logging_step sys mid Hstep (reachable_tasks_keep sys Hreach)) Hs).
Qed.

End LoggingInvariant.

Lemma input_of_recorded (r : State) (t : string) :
  input_of (recorded r t) = formData r.
Proof. unfold input_of, recorded. simpl. apply lead_input_eta. Qed.

Lemma steps_reachable (validateLeadForm : LeadInput -> list ValidationError)
  (sys sys' : System) :
  reachable validateLeadForm sys -> steps validateLeadForm sys sys' ->
  reachable validateLeadForm sys'.
Proof.
  intros Hreach Hsteps. induction Hsteps as [sys | sys mid sys' Hstep _ IH].
  - exact Hreach.
  - apply IH. exact (reachable_step validateLeadForm sys mid Hreach Hstep).
Qed.

(** X6: the session log is append-only: from a reachable state of the
    component, whatever events follow, the log of the later state is the
    log of the earlier one followed by the leads recorded since; no lead is
    removed, changed or reordered. *)
Theorem session_log_is_append_only
  (validateLeadForm : LeadInput -> list ValidationError) (sys sys' : System) :
  reachable validateLeadForm sys ->
  steps validateLeadForm sys sys' ->
  exists newer, leads (ui sys') = (leads (ui sys) ++ newer)%list.
Proof.
  intros Hreach Hsteps.
  apply (steps_logging_invariant validateLeadForm (extends (leads (ui sys)))
           ) with (sys := sys); try assumption.
  - intros r s s' [older Hs] [[_ Hsame] | (_ & _ & t & Hmore)].
    + exists older. now rewrite Hsame.
    + exists (older ++ [recorded r t])%list. rewrite Hmore, Hs. now rewrite app_assoc.
  - intros s Hs. exact Hs.
  - exists []. now rewrite app_nil_r.
Qed.

Lemma greetable_reachable (validateLeadForm : LeadInput -> list ValidationError)
  (sys : System) :
  reachable validateLeadForm sys -> greetable (ui sys).
Proof.
  apply (reachable_logging_invariant validateLeadForm greetable).
  - intros r s s' Hs [[Hsub Hsame] | (_ & _ & t & Hmore)] Hshown.
    + rewrite Hsame. apply Hs. now rewrite <- Hsub.
    + rewrite Hmore. intros Hnil. now apply app_eq_nil in Hnil as [_ Hnil].
  - intros s _. discriminate.
  - discriminate.
Qed.

Lemma nonempty_snoc (ls : list SubmittedLead) :
  ls <> [] -> exists older l, ls = (older ++ [l])%list.
Proof.
  intros Hne. destruct (exists_last Hne) as (older & l & ->). now exists older, l.
Qed.

Lemma renders_alert (v : Js.value) :
  renders (alert v) = false <-> Js.truthy v = true /\ Js.valid_child v = false.
Proof.
  unfold renders, alert. destruct (Js.truthy v); simpl.
  - split; [intros H; split; [reflexivity | exact H] | intros [_ H]; exact H].
  - split; [discriminate | intros [H _]; discriminate H].
Qed.

(** X7: the heading of the success view is always defined: in every
    reachable state in which the success view is shown the log is not
    empty, so [leads[leads.length - 1].name] is the name of the last
    recorded lead, and the view shows that name and the length of the log.
    The render throws in one case only, in either view: the value of the
    alert is one React refuses as a child. *)
Theorem success_view_greets_last_lead
  (validateLeadForm : LeadInput -> list ValidationError) (sys : System) :
  reachable validateLeadForm sys ->
  (submitted (ui sys) = true ->
   exists older l,
     leads (ui sys) = (older ++ [l])%list /\
     greeting (ui sys) = Some (lead_name l) /\
     (renders (alert (emailError (ui sys))) = true ->
      render (ui sys) =
        Some (SuccessView (lead_name l) (S (length older))
                (match alert (emailError (ui sys)) with
                 | Some reason => Some (reason, isResendingEmail (ui sys))
                 | None => None
                 end)))) /\
  (render (ui sys) = None <->
   Js.truthy (shown_error (ui sys)) = true /\
   Js.valid_child (shown_error (ui sys)) = false).
Proof.
  intros Hreach. pose proof (greetable_reachable validateLeadForm sys Hreach) as Hgreet.
  unfold render, shown_error, greeting. destruct (submitted (ui sys)) eqn:Hsub.
  - destruct (nonempty_snoc (leads (ui sys)) (Hgreet Hsub)) as (older & l & Hleads).
    rewrite Hleads, lastLead_snoc, length_app. simpl.
    replace (length older + 1) with (S (length older)) by lia.
    split.
    + intros _. exists older, l. split; [reflexivity |]. split; [reflexivity |].
      intros ->. reflexivity.
    + rewrite <- renders_alert.
      destruct (renders (alert (emailError (ui sys)))); split;
        try discriminate; reflexivity.
  - split; [discriminate |].
    rewrite <- renders_alert.
    destruct (renders (alert (leadError (ui sys)))); split;
      try discriminate; reflexivity.
Qed.

(** X8: the session log holds validated leads only: in every reachable
    state, the name, email and industry of each recorded lead pass
    [validateLeadForm]. *)
Theorem recorded_leads_are_validated
  (validateLeadForm : LeadInput -> list ValidationError) (sys : System) :
  reachable validateLeadForm sys ->
  forall l, In l (leads (ui sys)) -> validateLeadForm (input_of l) = [].
Proof.
  intros Hreach. apply Forall_forall.
  apply (reachable_logging_invariant validateLeadForm (all_validated validateLeadForm));
    [| | constructor | exact Hreach].
  - intros r s s' Hs [[_ Hsame] | (Hvalid & _ & t & Hmore)]; unfold all_validated in *.
    + now rewrite Hsame.
    + rewrite Hmore. apply Forall_app. split; [exact Hs |].
      constructor; [| constructor]. now rewrite input_of_recorded.
  - intros s Hs. exact Hs.
Qed.

#[local] Transparent saveLead sendConfirmationEmail.

(** The first segment of [resendEmail] on a log that ends with [l]. *)
Lemma segment_resendEmail_last (t : string) (r s : State)
  (older : list SubmittedLead) (l : SubmittedLead) :
  leads r = (older ++ [l])%list ->
  exists k,
    segment t (resendEmail r) s =
    (setEmailError Js.Null (setIsResendingEmail true s),
     Some (Invoke "send-confirmation" (input_of l), k)).
Proof.
  intros Hleads. unfold resendEmail.
  rewrite Hleads, length_snoc_nonzero, lastLead_snoc. simpl.
  eexists. reflexivity.
Qed.

#[local] Opaque saveLead sendConfirmationEmail.

(** X9: a click on the retry button always re-sends: in every reachable
    state in which the button is enabled the log is not empty, so the click
    hides the alert, raises [isResendingEmail] and puts exactly one request
    in flight, to the email function for the last recorded lead; the guard
    of [resendEmail] against an empty log is never taken. *)
Theorem retry_click_always_resends
  (validateLeadForm : LeadInput -> list ValidationError) (sys : System) (t : string) :
  reachable validateLeadForm sys ->
  retry_enabled (ui sys) = true ->
  exists older l k,
    leads (ui sys) = (older ++ [l])%list /\
    advance FromResend t (resendEmail (ui sys)) (ui sys) (pending sys) =
    mkSystem (setEmailError Js.Null (setIsResendingEmail true (ui sys)))
             (pending sys ++
              [mkTask FromResend (Invoke "send-confirmation" (input_of l)) k])%list.
Proof.
  intros Hreach Henabled.
  pose proof (greetable_reachable validateLeadForm sys Hreach) as Hgreet.
  unfold retry_enabled in Henabled.
  apply andb_prop in Henabled as [Henabled _]. apply andb_prop in Henabled as [Hsub _].
  destruct (nonempty_snoc (leads (ui sys)) (Hgreet Hsub)) as (older & l & Hleads).
  destruct (segment_resendEmail_last t (ui sys) (ui sys) older l Hleads) as [k Hseg].
  exists older, l, k. split; [exact Hleads |].
  unfold advance. rewrite Hseg. reflexivity.
Qed.

(** ** The submit guard *)

#[local] Transparent saveLead sendConfirmationEmail.

(** The first segment of [handleSubmit]: the critical error is cleared and
    the view kept; on a form that fails validation the handler ends with
    [isSubmitting] as it was, otherwise it raises [isSubmitting] and
    suspends, and every later segment is one of a submission in flight. *)
Lemma segment_handleSubmit (validateLeadForm : LeadInput -> list ValidationError)
  (t : string) (r s : State) :
  submitted (fst (segment t (handleSubmit validateLeadForm r) s)) = submitted s /\
  leadError (fst (segment t (handleSubmit validateLeadForm r) s)) = Js.Null /\
  match snd (segment t (handleSubmit validateLeadForm r) s) with
  | None => isSubmitting (fst (segment t (handleSubmit validateLeadForm r) s))
            = isSubmitting s
  | Some (q, k) =>
      isSubmitting (fst (segment t (handleSubmit validateLeadForm r) s)) = true /\
      forall reply, submit_segment (k reply) /\ conts_satisfy submit_segment (k reply)
  end.
Proof.
  unfold handleSubmit, update.
  destruct (validateLeadForm (formData r)) as [| e errors].
  - unfold submit_segment. walk; try reflexivity; congruence.
  - walk; reflexivity.
Qed.

Lemma resendEmail_bystander (r : State) :
  bystander_segment (resendEmail r) /\ conts_satisfy bystander_segment (resendEmail r).
Proof.
  unfold resendEmail, bystander_segment, update.
  destruct (length (leads r) =? 0)%nat.
  - walk; reflexivity.
  - destruct (lastLead (leads r)) as [l |]; walk; reflexivity.
Qed.

Lemma handleInputChange_bystander (r : State) (f : Field) (v : string) :
  bystander_segment (handleInputChange r f v) /\
  conts_satisfy bystander_segment (handleInputChange r f v).
Proof.
  unfold handleInputChange, bystander_segment, update.
  destruct (existsb _ _); walk; reflexivity.
Qed.

#[local] Opaque saveLead sendConfirmationEmail.

Lemma submits_in_flight_app (s : State) (a b : list Task) :
  submits_in_flight (mkSystem s (a ++ b)) =
  (submits_in_flight (mkSystem s a) ++ submits_in_flight (mkSystem s b))%list.
Proof. unfold submits_in_flight. simpl. apply filter_app. Qed.

Lemma submit_invariant_initial : submit_invariant (mkSystem initialState []).
Proof.
  constructor; simpl; try discriminate; try lia; try reflexivity; intros task [].
Qed.

(** A segment of a handler that is not a submission. *)
Lemma submit_invariant_bystander (o : Origin) (t : string) (p : Async unit)
  (s : State) (others : list Task) :
  o <> FromSubmit ->
  bystander_segment p /\ conts_satisfy bystander_segment p ->
  submit_invariant (mkSystem s others) ->
  submit_invariant (advance o t p s others).
Proof.
  intros Ho [Hfirst Hconts] [Hflow Hothers Hcount Hflag Hform Hclean]. simpl in *.
  destruct (Hfirst t s) as (Hsubmitting & Hsubmitted & Hlead).
  pose proof (segment_conts _ p Hconts t s) as Hnext.
  unfold advance. destruct (segment t p s) as [s' [[q k] |]]; simpl in *.
  - assert (Hnew : is_submit (mkTask o q k) = false)
      by (unfold is_submit; simpl; destruct o; congruence).
    constructor; simpl.
    + intros task Hin Htask. apply in_app_or in Hin as [Hin | [<- | []]].
      * now apply Hflow.
      * congruence.
    + intros task Hin Htask. apply in_app_or in Hin as [Hin | [<- | []]].
      * now apply Hothers.
      * simpl. exact (Hnext q k eq_refl).
    + rewrite submits_in_flight_app. unfold submits_in_flight at 2. simpl.
      rewrite Hnew, app_nil_r. exact Hcount.
    + rewrite submits_in_flight_app. unfold submits_in_flight at 2. simpl.
      rewrite Hnew, app_nil_r, Hsubmitting. exact Hflag.
    + rewrite Hsubmitting, Hsubmitted, Hlead. exact Hform.
    + rewrite Hsubmitted, Hlead. exact Hclean.
  - constructor; simpl; auto.
    + rewrite Hsubmitting. exact Hflag.
    + rewrite Hsubmitting, Hsubmitted, Hlead. exact Hform.
    + rewrite Hsubmitted, Hlead. exact Hclean.
Qed.

Lemma submit_invariant_remove (s : State) (before after : list Task) (task : Task) :
  is_submit task = false ->
  submit_invariant (mkSystem s (before ++ task :: after)) ->
  submit_invariant (mkSystem s (before ++ after)).
Proof.
  intros Htask [Hflow Hothers Hcount Hflag Hform Hclean].
  assert (Hsame : submits_in_flight (mkSystem s (before ++ task :: after))
                  = submits_in_flight (mkSystem s (before ++ after))).
  { rewrite !submits_in_flight_app. f_equal.
    unfold submits_in_flight. simpl. rewrite Htask. reflexivity. }
  constructor; simpl in *; auto.
  - intros x Hin. apply Hflow. apply in_app_or in Hin as [Hin | Hin];
      apply in_or_app; [left | right; right]; exact Hin.
  - intros x Hin. apply Hothers. apply in_app_or in Hin as [Hin | Hin];
      apply in_or_app; [left | right; right]; exact Hin.
  - rewrite <- Hsame. exact Hcount.
  - rewrite <- Hsame. exact Hflag.
Qed.

(** The submission in flight gets its reply: it suspends again, still the
    only one, or it ends and lowers the flag. *)
Lemma submit_invariant_settle (t : string) (s : State) (before after : list Task)
  (task : Task) (reply : Reply) :
  is_submit task = true ->
  submit_invariant (mkSystem s (before ++ task :: after)) ->
  submit_invariant (advance (origin task) t (resume task reply) s (before ++ after)).
Proof.
  intros Htask [Hflow Hothers Hcount Hflag Hform Hclean]. simpl in *.
  assert (Hin : In task (before ++ task :: after))
    by (apply in_or_app; right; left; reflexivity).
  destruct (Hflow task Hin Htask reply) as [Hseg Hconts].
  pose proof (segment_conts _ _ Hconts t s) as Hnext.
  specialize (Hseg t s).
  rewrite submits_in_flight_app in Hcount, Hflag.
  unfold submits_in_flight at 2 in Hcount. unfold submits_in_flight at 2 in Hflag.
  simpl in Hcount, Hflag. rewrite Htask in Hcount, Hflag.
  rewrite length_app in Hcount, Hflag. simpl in Hcount, Hflag.
  assert (Hnone : filter is_submit (before ++ after) = []).
  { rewrite filter_app. unfold submits_in_flight in Hcount. simpl in Hcount.
    destruct (filter is_submit before); simpl in Hcount; [| lia].
    destruct (filter is_submit after); simpl in Hcount; [reflexivity | lia]. }
  assert (Hon : isSubmitting s = true).
  { rewrite Hflag. apply negb_true_iff, Nat.eqb_neq. lia. }
  destruct (Hform Hon) as [Hshown Hnoerror].
  assert (Hrest : forall x, In x (before ++ after) -> In x (before ++ task :: after)).
  { intros x Hx. apply in_app_or in Hx as [Hx | Hx];
      apply in_or_app; [left | right; right]; exact Hx. }
  unfold advance. destruct (segment t (resume task reply) s) as [s' [[q k] |]]; simpl in *.
  - destruct Hseg as (Hsubmitting & Hsubmitted & Hlead).
    assert (Hnew : is_submit (mkTask (origin task) q k) = true) by exact Htask.
    constructor; simpl.
    + intros x Hx Hsub. apply in_app_or in Hx as [Hx | [<- | []]].
      * apply Hflow; [now apply Hrest | exact Hsub].
      * simpl. exact (Hnext q k eq_refl).
    + intros x Hx Hsub. apply in_app_or in Hx as [Hx | [<- | []]].
      * apply Hothers; [now apply Hrest | exact Hsub].
      * congruence.
    + unfold submits_in_flight. simpl. rewrite filter_app, Hnone. simpl.
      rewrite Hnew. simpl. lia.
    + unfold submits_in_flight. simpl. rewrite filter_app, Hnone. simpl.
      rewrite Hnew. simpl. congruence.
    + intros _. split; congruence.
    + congruence.
  - destruct Hseg as [Hoff Hview].
    constructor; simpl.
    + intros x Hx. apply Hflow. now apply Hrest.
    + intros x Hx. apply Hothers. now apply Hrest.
    + unfold submits_in_flight. simpl. rewrite Hnone. simpl. lia.
    + unfold submits_in_flight. simpl. rewrite Hnone. exact Hoff.
    + rewrite Hoff. discriminate.
    + now apply Hview.
Qed.

(** A submission of the form, which is enabled only with the flag down. *)
Lemma submit_invariant_submit (validateLeadForm : LeadInput -> list ValidationError)
  (t : string) (sys : System) :
  form_enabled (ui sys) = true ->
  submit_invariant sys ->
  submit_invariant
    (advance FromSubmit t (handleSubmit validateLeadForm (ui sys)) (ui sys) (pending sys)).
Proof.
  intros Henabled [Hflow Hothers Hcount Hflag Hform Hclean].
  destruct sys as [s tasks]. simpl in *.
  unfold form_enabled in Henabled. apply andb_prop in Henabled as [Hshown Hoff].
  apply negb_true_iff in Hshown, Hoff.
  rewrite Hoff in Hflag. symmetry in Hflag. apply negb_false_iff, Nat.eqb_eq in Hflag.
  destruct (segment_handleSubmit validateLeadForm t s s) as (Hsubmitted & Hlead & Hseg).
  unfold advance.
  destruct (segment t (handleSubmit validateLeadForm s) s) as [s' [[q k] |]]; simpl in *.
  - destruct Hseg as [Hon Hnext].
    constructor; simpl.
    + intros x Hx Hsub. apply in_app_or in Hx as [Hx | [<- | []]].
      * now apply Hflow.
      * simpl. apply Hnext.
    + intros x Hx Hsub. apply in_app_or in Hx as [Hx | [<- | []]].
      * now apply Hothers.
      * discriminate Hsub.
    + rewrite submits_in_flight_app, length_app. unfold submits_in_flight in *.
      simpl in *. rewrite Hflag. simpl. lia.
    + rewrite submits_in_flight_app, length_app. unfold submits_in_flight in *.
      simpl in *. rewrite Hflag. exact Hon.
    + intros _. split; congruence.
    + intros _. exact Hlead.
  - constructor; simpl; auto.
    + unfold submits_in_flight in *. simpl in *. rewrite Hflag. simpl. congruence.
    + intros _. split; congruence.
Qed.

Lemma submit_invariant_step (validateLeadForm : LeadInput -> list ValidationError)
  (sys sys' : System) :
  step validateLeadForm sys sys' -> submit_invariant sys -> submit_invariant sys'.
Proof.
  intros Hstep Hinv. destruct Hstep as
    [sys t Hform | sys t Hretry | sys Hsub | sys t f v Hform
     | sys t before after task reply Hpending].
  - now apply submit_invariant_submit.
  - apply submit_invariant_bystander;
      [discriminate | apply resendEmail_bystander | destruct sys; exact Hinv].
  - destruct Hinv as [Hflow Hothers Hcount Hflag Hshown Hclean].
    constructor; simpl; auto; try discriminate.
  - apply submit_invariant_bystander;
      [discriminate | apply handleInputChange_bystander | destruct sys; exact Hinv].
  - destruct sys as [s tasks]. simpl in *. subst tasks.
    destruct (is_submit task) eqn:Htask.
    + now apply submit_invariant_settle.
    + apply submit_invariant_bystander.
      * unfold is_submit in Htask. destruct (origin task); congruence.
      * destruct Hinv as [_ Hothers _ _ _ _]. apply Hothers; [| exact Htask].
        apply in_or_app. right. left. reflexivity.
      * now apply (submit_invariant_remove s before after task).
Qed.

Lemma reachable_submit_invariant (validateLeadForm : LeadInput -> list ValidationError)
  (sys : System) :
  reachable validateLeadForm sys -> submit_invariant sys.
Proof.
  induction 1 as [| sys sys' _ IH Hstep].
  - exact submit_invariant_initial.
  - exact (submit_invariant_step validateLeadForm sys sys' Hstep IH).
Qed.

(** X10: at most one submission is in flight: in every reachable state
    [isSubmitting] is true exactly while one submission, and no more than
    one, waits for a reply; while it is true the form is disabled, so no
    event starts a second submission or edits the form: no step taken then
    adds a submission to those in flight. *)
Theorem one_submission_in_flight
  (validateLeadForm : LeadInput -> list ValidationError) (sys : System) :
  reachable validateLeadForm sys ->
  length (submits_in_flight sys) <= 1 /\
  (isSubmitting (ui sys) = true <-> length (submits_in_flight sys) = 1) /\
  (isSubmitting (ui sys) = true -> form_enabled (ui sys) = false) /\
  (isSubmitting (ui sys) = true ->
   forall sys', step validateLeadForm sys sys' ->
                length (submits_in_flight sys') <= length (submits_in_flight sys)).
Proof.
  intros Hreach.
  pose proof (reachable_submit_invariant validateLeadForm sys Hreach)
    as [_ _ Hcount Hflag _ _].
  assert (Hiff : isSubmitting (ui sys) = true <-> length (submits_in_flight sys) = 1).
  { rewrite Hflag. destruct (length (submits_in_flight sys)) as [| [| n]]; simpl.
    - split; [discriminate | lia].
    - split; reflexivity.
    - lia. }
  split; [exact Hcount |]. split; [exact Hiff |]. split.
  - intros Hon. unfold form_enabled. rewrite Hon. apply andb_false_r.
  - intros Hon sys' Hstep. apply Hiff in Hon. rewrite Hon.
    apply (reachable_submit_invariant validateLeadForm sys').
    now apply (reachable_step validateLeadForm sys sys').
Qed.

(** X11: the success view and a critical error exclude each other: in
    every reachable state, when the success view is shown [leadError] is
    null and no submission is in flight, and while a submission is in
    flight the form view is shown without the alert of the critical error:
    the overlay and that alert are never rendered together. *)
Theorem success_view_has_no_critical_error
  (validateLeadForm : LeadInput -> list ValidationError) (sys : System) :
  reachable validateLeadForm sys ->
  (submitted (ui sys) = true ->
   leadError (ui sys) = Js.Null /\ isSubmitting (ui sys) = false) /\
  (isSubmitting (ui sys) = true ->
   submitted (ui sys) = false /\ leadError (ui sys) = Js.Null) /\
  (forall failed values nameMessage emailMessage industryMessage disabled,
      render (ui sys) <>
      Some (FormView true (Some failed) values
              nameMessage emailMessage industryMessage disabled)).
Proof.
  intros Hreach.
  pose proof (reachable_submit_invariant validateLeadForm sys Hreach)
    as [_ _ _ _ Hform Hclean].
  split; [| split].
  - intros Hshown. split; [now apply Hclean |].
    destruct (isSubmitting (ui sys)) eqn:Hon; [| reflexivity].
    destruct (Hform eq_refl) as [Hhidden _]. congruence.
  - exact Hform.
  - intros failed values m1 m2 m3 disabled. unfold render.
    destruct (submitted (ui sys)) eqn:Hshown.
    + destruct (greeting (ui sys));
        [destruct (renders (alert (emailError (ui sys)))) |]; discriminate.
    + destruct (renders (alert (leadError (ui sys)))); [| discriminate].
      intros [= Hon Halert _ _ _ _ _].
      destruct (Hform Hon) as [_ Hnull]. rewrite Hnull in Halert. discriminate.
Qed.

(** ** The further properties at concrete inputs *)

#[local] Transparent saveLead sendConfirmationEmail.

Lemma play_steps (validateLeadForm : LeadInput -> list ValidationError)
  (t : string) (events : list Event) :
  forall sys sys',
    play validateLeadForm t events sys = Some sys' -> steps validateLeadForm sys sys'.
Proof.
  induction events as [| e rest IH]; simpl; intros sys sys'.
  - intros [= <-]. apply steps_none.
  - destruct (fire validateLeadForm t e sys) as [mid |] eqn:Hfire; [| discriminate].
    intros Hplay. apply (steps_more validateLeadForm sys mid sys').
    + now apply (fire_step validateLeadForm t e).
    + now apply IH.
Qed.

Lemma after_reachable (events : list Event) :
  play requireAll "T" events (mkSystem initialState []) = Some (after events) ->
  reachable requireAll (after events).
Proof.
  apply (play_reachable requireAll "T" events). apply reachable_init.
Qed.

Lemma edit_clears_only_own_errors_witness :
  let st := mkState (mkLeadInput "Ana" EmptyString EmptyString)
                    [mkValidationError "email" "Email is required";
                     mkValidationError "industry" "Industry is required"]
                    false false false Js.Null Js.Null [] in
  let r := run (world (Resolves Js.Null) (Resolves Js.Null) "T")
               (handleInputChange st FEmail "ana@x.com") st in
  formData (final r) = mkLeadInput "Ana" "ana@x.com" EmptyString /\
  getFieldError st "email" = Some "Email is required" /\
  getFieldError (final r) "email" = None /\
  getFieldError (final r) "industry" = Some "Industry is required".
Proof.
  cbv zeta.
  destruct (edit_clears_only_own_errors
              (world (Resolves Js.Null) (Resolves Js.Null) "T")
              (mkState (mkLeadInput "Ana" EmptyString EmptyString)
                       [mkValidationError "email" "Email is required";
                        mkValidationError "industry" "Industry is required"]
                       false false false Js.Null Js.Null [])
              FEmail "ana@x.com")
    as (_ & _ & Hform & Hown & Hothers & _).
  split; [exact Hform |]. split; [reflexivity |]. split; [exact Hown |].
  rewrite (Hothers "industry"); [reflexivity | discriminate].
Defined.

Lemma edits_commute_and_overwrite_witness :
  let w := world (Resolves Js.Null) (Resolves Js.Null) "T" in
  let edit := fun s h x => final (run w (handleInputChange s h x) s) in
  edit (edit initialState FName "Ana") FEmail "ana@x.com"
  = edit (edit initialState FEmail "ana@x.com") FName "Ana" /\
  edit (edit initialState FName "An") FName "Ana" = edit initialState FName "Ana".
Proof.
  cbv zeta.
  destruct (edits_commute_and_overwrite (world (Resolves Js.Null) (Resolves Js.Null) "T")
              initialState FName FEmail "Ana" "ana@x.com") as [Hcommute _].
  destruct (edits_commute_and_overwrite (world (Resolves Js.Null) (Resolves Js.Null) "T")
              initialState FName FName "An" "Ana") as [_ Hover].
  split; [apply Hcommute; discriminate | exact Hover].
Defined.

Lemma lead_recorded_iff_persisted_witness :
  let w := world (Resolves Js.Null) (Rejects (Js.Str "offline")) "T" in
  let r := run w (handleSubmit requireAll filled) filled in
  leads (final r) = [mkSubmittedLead "Ana" "ana@x.com" "finance" "T"] /\
  submitted (final r) = true /\
  formData (final r) = emptyForm.
Proof.
  cbv zeta.
  destruct (lead_recorded_iff_persisted requireAll
              (world (Resolves Js.Null) (Rejects (Js.Str "offline")) "T") filled)
    as (_ & Hleads & Hsub & Hform & _).
  split; [exact Hleads |]. split; [exact Hsub | exact Hform].
Defined.

Lemma retry_resends_submitted_form_witness :
  let w := world (Resolves Js.Null) (Rejects (Js.Str "offline")) "T" in
  let w' := world (Resolves Js.Null) (Resolves Js.Null) "T'" in
  let st1 := final (run w (handleSubmit requireAll filled) filled) in
  let r := run w' (resendEmail st1) st1 in
  formData st1 = emptyForm /\
  emailError st1 = Js.Str "Unexpected error while sending email." /\
  outcome r = Returned tt /\
  trace r = [Invoke "send-confirmation" ana] /\
  leads (final r) = [mkSubmittedLead "Ana" "ana@x.com" "finance" "T"] /\
  formData (final r) = emptyForm /\
  submitted (final r) = true /\
  isResendingEmail (final r) = false /\
  emailError (final r) = Js.Null.
Proof.
  cbv zeta. split; [reflexivity |]. split; [reflexivity |].
  destruct (retry_resends_submitted_form requireAll
              (world (Resolves Js.Null) (Rejects (Js.Str "offline")) "T")
              (world (Resolves Js.Null) (Resolves Js.Null) "T'")
              filled eq_refl eq_refl)
    as (Hout & Htrace & Hleads & Hform & Hsub & Hflag & Hok).
  split; [exact Hout |]. split; [exact Htrace |]. split; [exact Hleads |].
  split; [exact Hform |]. split; [exact Hsub |]. split; [exact Hflag |].
  exact (Hok eq_refl).
Defined.

Lemma failure_without_object_surfaces_fallback_witness :
  let w := world (Rejects (Js.Str "connection reset")) (Resolves (Js.Str "denied")) "T" in
  outcome (run w (saveLead ana) filled)
  = Returned (mkResult false (Some (Js.Str "Unexpected error while saving lead."))) /\
  outcome (run w (sendConfirmationEmail ana) filled)
  = Returned (mkResult false (Some (Js.Str "Failed to send confirmation email."))).
Proof.
  cbv zeta.
  destruct (failure_without_object_surfaces_fallback
              (world (Rejects (Js.Str "connection reset")) (Resolves (Js.Str "denied")) "T")
              ana filled) as (Hthrown & _ & _ & Hdenied).
  split.
  - apply (Hthrown (Js.Str "connection reset") eq_refl). left. discriminate.
  - apply (Hdenied (Js.Str "denied") eq_refl eq_refl); discriminate.
Defined.

Lemma session_log_is_append_only_witness :
  leads (ui (after submitting)) = [] /\
  leads (ui (after welcomed)) = [mkSubmittedLead "Ana" "ana@x.com" "finance" "T"] /\
  exists newer,
    leads (ui (after welcomed)) = (leads (ui (after submitting)) ++ newer)%list.
Proof.
  split; [reflexivity |]. split; [reflexivity |].
  apply (session_log_is_append_only requireAll (after submitting) (after welcomed)).
  - apply after_reachable. reflexivity.
  - apply (play_steps requireAll "T"
             [Settle 0 (Resolves Js.Null); Settle 0 (Resolves Js.Null)]).
    reflexivity.
Defined.

Lemma success_view_greets_last_lead_witness :
  submitted (ui (after welcomed)) = true /\
  greeting (ui (after welcomed)) = Some "Ana" /\
  render (ui (after welcomed)) = Some (SuccessView "Ana" 1 None) /\
  exists older l,
    leads (ui (after welcomed)) = (older ++ [l])%list /\
    greeting (ui (after welcomed)) = Some (lead_name l).
Proof.
  split; [reflexivity |]. split; [reflexivity |]. split; [reflexivity |].
  destruct (success_view_greets_last_lead requireAll (after welcomed)
              (after_reachable welcomed eq_refl)) as [Hshown _].
  destruct (Hshown eq_refl) as (older & l & Hleads & Hgreeting & _).
  exists older, l. split; [exact Hleads | exact Hgreeting].
Defined.

Lemma recorded_leads_are_validated_witness :
  In (mkSubmittedLead "Ana" "ana@x.com" "finance" "T") (leads (ui (after welcomed))) /\
  requireAll ana = [].
Proof.
  assert (Hin : In (mkSubmittedLead "Ana" "ana@x.com" "finance" "T")
                   (leads (ui (after welcomed)))) by (left; reflexivity).
  split; [exact Hin |].
  exact (recorded_leads_are_validated requireAll (after welcomed)
           (after_reachable welcomed eq_refl) _ Hin).
Defined.

Lemma retry_click_always_resends_witness :
  retry_enabled (ui (after pendingEmail)) = true /\
  render (ui (after pendingEmail))
  = Some (SuccessView "Ana" 1 (Some (Js.Str "rate limited", false))) /\
  exists older l k,
    leads (ui (after pendingEmail)) = (older ++ [l])%list /\
    advance FromResend "T" (resendEmail (ui (after pendingEmail)))
            (ui (after pendingEmail)) (pending (after pendingEmail)) =
    mkSystem (setEmailError Js.Null (setIsResendingEmail true (ui (after pendingEmail))))
             (pending (after pendingEmail) ++
              [mkTask FromResend (Invoke "send-confirmation" (input_of l)) k])%list.
Proof.
  split; [reflexivity |]. split; [reflexivity |].
  apply (retry_click_always_resends requireAll (after pendingEmail) "T").
  - apply after_reachable. reflexivity.
  - reflexivity.
Defined.

Lemma one_submission_in_flight_witness :
  isSubmitting (ui (after submitting)) = true /\
  length (submits_in_flight (after submitting)) = 1 /\
  form_enabled (ui (after submitting)) = false /\
  (forall sys', step requireAll (after submitting) sys' ->
                length (submits_in_flight sys') <= 1).
Proof.
  pose proof (one_submission_in_flight requireAll (after submitting)
                (after_reachable submitting eq_refl))
    as (_ & Hiff & Hdisabled & Hnext).
  assert (Hon : isSubmitting (ui (after submitting)) = true) by reflexivity.
  split; [exact Hon |]. split; [apply Hiff, Hon |]. split; [exact (Hdisabled Hon) |].
  intros sys' Hstep. rewrite <- (proj1 Hiff Hon). exact (Hnext Hon sys' Hstep).
Defined.

Lemma success_view_has_no_critical_error_witness :
  submitted (ui (after welcomed)) = true /\
  leadError (ui (after welcomed)) = Js.Null /\
  isSubmitting (ui (after welcomed)) = false.
Proof.
  split; [reflexivity |].
  apply (success_view_has_no_critical_error requireAll (after welcomed)).
  - apply after_reachable. reflexivity.
  - reflexivity.
Defined.
